(** * A shallow embedding of the Koinos example token contract

    The contract lives in [assembly/Token.ts].  It keeps three pieces of
    contract storage (the supply object, the balance map and the allowance
    map), asks the host for the caller and for the transaction signatures,
    and emits events.  Storage reads and writes, [System.require],
    run-time traps and [System.event] are threaded through a small
    state-and-failure monad; the host's view of one call (commit on success,
    discard every write on failure) is [exec]. *)

From Stdlib Require Import ZArith String.
From Stdlib.Strings Require Import Byte.
From stdpp Require Import base tactics option list gmap fin_maps.

Open Scope Z_scope.

(** ** Bytes and [Uint8Array] *)

Abbreviation bytes := (list byte).

#[global] Instance byte_eq_dec : EqDecision byte := Byte.byte_eq_dec.
#[global] Instance byte_countable : Countable byte :=
  inj_countable Byte.to_N Byte.of_N Byte.of_to_N.

(** [new Uint8Array(n)]: [n] zero bytes. *)
Definition Uint8Array_new (n : nat) : bytes := replicate n x00.

(** [target.set(source, offset)]: copies [source] into [target] starting at
    [offset]; AssemblyScript throws a [RangeError] ([None] here) when the
    source does not fit. *)
Definition Uint8Array_set (target source : bytes) (offset : nat) : option bytes :=
  if decide (length source + offset ≤ length target)%nat
  then Some (take offset target ++ source ++ drop (offset + length source) target)
  else None.

(** [Arrays.equal(a, b)] on two non-null arrays. *)
Definition Arrays_equal (a b : bytes) : bool := bool_decide (a = b).

(** ** 64-bit unsigned arithmetic *)

Definition u64_modulus : Z := 2 ^ 64.
Definition u64_MAX_VALUE : Z := u64_modulus - 1.
Definition is_u64 (x : Z) : Prop := 0 ≤ x < u64_modulus.
Definition u64_add (a b : Z) : Z := (a + b) `mod` u64_modulus.
Definition u64_sub (a b : Z) : Z := (a - b) `mod` u64_modulus.

(** ** Events *)

Inductive event_data :=
  | approve_event (owner spender : bytes) (value : Z)
  | transfer_event (from_ to_ : bytes) (value : Z)
  | mint_event (to_ : bytes) (value : Z)
  | burn_event (from_ : bytes) (value : Z).

Record event := Event {
  event_name : string;
  event_payload : event_data;
  event_impacted : list bytes
}.

(** ** Contract storage and the event log *)

Record chain_state := ChainState {
  supply : option Z;               (* Storage.Obj, SUPPLY_SPACE_ID *)
  balances : gmap bytes Z;         (* Storage.Map, BALANCES_SPACE_ID *)
  allowances : gmap bytes Z;       (* Storage.Map, ALLOWANCES_SPACE_ID *)
  events : list event              (* what System.event has recorded *)
}.

Definition initial_state : chain_state :=
  {| supply := None; balances := ∅; allowances := ∅; events := [] |}.

(** ** What the host supplies to one call *)

Record host := Host {
  contract_id : bytes;                              (* System.getContractId() *)
  caller : option bytes;                            (* System.getCaller().caller *)
  tx_signatures : option (list bytes);              (* transaction field "signatures" *)
  tx_id : option bytes;                             (* transaction field "id" *)
  recoverPublicKey : bytes → bytes → option bytes;  (* System.recoverPublicKey *)
  addressFromPublicKey : bytes → bytes              (* Crypto.addressFromPublicKey *)
}.

(** ** The monad of contract code *)

Inductive failure :=
  | Revert (msg : string)   (* System.require / SafeMath with its message *)
  | Trap.                   (* RangeError, failed non-null assertion *)

(** A failed computation still carries the storage as it stood when the
    failure happened: the contract does no rollback of its own. *)
Inductive result (A : Type) :=
  | Ok (a : A) (s : chain_state)
  | Fail (e : failure) (s : chain_state).
Arguments Ok {A} a s.
Arguments Fail {A} e s.

Definition M (A : Type) : Type := chain_state → result A.

#[global] Instance M_ret : MRet M := λ A a s, Ok a s.
#[global] Instance M_bind : MBind M := λ A B f m s,
  match m s with
  | Ok a s' => f a s'
  | Fail e s' => Fail e s'
  end.
Definition fail {A} (e : failure) : M A := λ s, Fail e s.

(** The non-null assertion [e!] and a throwing library call. *)
Definition unwrap {A} (o : option A) : M A :=
  match o with Some a => mret a | None => fail Trap end.

(** [System.require(cond, msg)]. *)
Definition System_require (cond : bool) (msg : string) : M unit :=
  if cond then mret tt else fail (Revert msg).

(** [SafeMath.sub(a, b, msg)] on [u64]: reverts with [msg] when [b > a]. *)
Definition SafeMath_sub (a b : Z) (msg : string) : M Z :=
  if b >? a then fail (Revert msg) else mret (a - b).

(** Storage writes, as functions on the state. *)
Definition set_supply (v : Z) (s : chain_state) : chain_state :=
  {| supply := Some v; balances := balances s;
     allowances := allowances s; events := events s |}.
Definition set_balance (k : bytes) (v : Z) (s : chain_state) : chain_state :=
  {| supply := supply s; balances := <[k := v]> (balances s);
     allowances := allowances s; events := events s |}.
Definition set_allowance (k : bytes) (v : Z) (s : chain_state) : chain_state :=
  {| supply := supply s; balances := balances s;
     allowances := <[k := v]> (allowances s); events := events s |}.
Definition add_event (e : event) (s : chain_state) : chain_state :=
  {| supply := supply s; balances := balances s;
     allowances := allowances s; events := events s ++ [e] |}.

(** Storage reads with the default of the [Storage.Obj] / [Storage.Map]
    they come from: [new token.uint64(0)] for the supply and the balances. *)
Definition stored_supply (s : chain_state) : Z := default 0 (supply s).
Definition stored_balance (s : chain_state) (k : bytes) : Z :=
  default 0 (balances s !! k).

(** [System.event(name, data, impacted)]. *)
Definition System_event (name : string) (data : event_data) (impacted : list bytes) : M unit :=
  λ s, Ok tt (add_event (Event name data impacted) s).

(** [this.supply.get()!] and [this.supply.put(v)]. *)
Definition supply_get : M Z := λ s, Ok (stored_supply s) s.
Definition supply_put (v : Z) : M unit := λ s, Ok tt (set_supply v s).

(** [this.balances.get(k)!] and [this.balances.put(k, v)]. *)
Definition balances_get (k : bytes) : M Z := λ s, Ok (stored_balance s k) s.
Definition balances_put (k : bytes) (v : Z) : M unit := λ s, Ok tt (set_balance k v s).

(** [this.allowances.get(k)]: no default, [null] when the record is absent. *)
Definition allowances_get (k : bytes) : M (option Z) := λ s, Ok (allowances s !! k) s.
Definition allowances_put (k : bytes) (v : Z) : M unit := λ s, Ok tt (set_allowance k v s).

(** ** Arguments of the entry points ([token.proto]) *)

Record approve_arguments := ApproveArgs {
  approve_owner : bytes; approve_spender : bytes; approve_value : Z }.
Record transfer_arguments := TransferArgs {
  transfer_from : bytes; transfer_to : bytes; transfer_value : Z }.
Record mint_arguments := MintArgs { mint_to : bytes; mint_value : Z }.
Record burn_arguments := BurnArgs { burn_from : bytes; burn_value : Z }.
Record allowance_arguments := AllowanceArgs {
  allowance_owner : bytes; allowance_spender : bytes }.

(** ** [Token.ts] *)

(** [total_supply], [balance_of]. *)
Definition total_supply : M Z := supply_get.
Definition balance_of (owner : bytes) : M Z := balances_get owner.

(** [allowance]: absent records read as zero. *)
Definition allowance (args : allowance_arguments) : M Z :=
  key ← mret (Uint8Array_new 50);
  key ← unwrap (Uint8Array_set key (allowance_owner args) 0);
  key ← unwrap (Uint8Array_set key (allowance_spender args) 25);
  a ← allowances_get key;
  match a with
  | None => mret 0
  | Some v => mret v
  end.

(** The loop of [getSigners]: one public-key recovery per signature, the
    derived address pushed at the end of [signers]. *)
Fixpoint getSigners_loop (h : host) (txId : bytes) (sigs signers : list bytes)
  : M (list bytes) :=
  match sigs with
  | [] => mret signers
  | sg :: rest =>
      publicKey ← unwrap (recoverPublicKey h sg txId);
      getSigners_loop h txId rest (signers ++ [addressFromPublicKey h publicKey])
  end.

Definition getSigners (h : host) : M (list bytes) :=
  signatures ← unwrap (tx_signatures h);
  txId ← unwrap (tx_id h);
  getSigners_loop h txId signatures [].

(** [caller.caller && caller.caller.length > 0]. *)
Definition has_caller (c : option bytes) : option bytes :=
  match c with
  | Some (b :: l) => Some (b :: l)
  | _ => None
  end.

(** Lines 166-173 of [check_authority]: the allowance of the caller is read
    and, when it covers [amount], written back reduced. *)
Definition spend_allowance (key : bytes) (amount : Z) : M bool :=
  a ← allowances_get key;
  match a with
  | Some v =>
      if amount <=? v
      then allowances_put key (u64_sub v amount) ;; mret true
      else mret false
  | None => mret false
  end.

Definition check_authority (h : host) (account : bytes) (acceptAllowances : bool)
    (amount : Z) : M bool :=
  key ← mret (Uint8Array_new 50);
  key ← (if acceptAllowances then unwrap (Uint8Array_set key account 0) else mret key);
  match has_caller (caller h) with
  | Some c =>
      spent ← (if acceptAllowances
                then key ← unwrap (Uint8Array_set key c 25); spend_allowance key amount
                else mret false);
      if spent : bool then mret true
      else if Arrays_equal account c then mret true
      else mret false
  | None =>
      signers ← getSigners h;
      mret (existsb (Arrays_equal account) signers)
  end.

Definition _approve (args : approve_arguments) : M unit :=
  key ← mret (Uint8Array_new 50);
  key ← unwrap (Uint8Array_set key (approve_owner args) 0);
  key ← unwrap (Uint8Array_set key (approve_spender args) 25);
  allowances_put key (approve_value args);;
  System_event "token.approve"
    (approve_event (approve_owner args) (approve_spender args) (approve_value args))
    [approve_spender args; approve_owner args].

Definition _transfer (args : transfer_arguments) : M unit :=
  fromBalance ← balances_get (transfer_from args);
  System_require (transfer_value args <=? fromBalance)
    "account 'from' has insufficient balance";;
  balances_put (transfer_from args) (u64_sub fromBalance (transfer_value args));;
  toBalance ← balances_get (transfer_to args);
  balances_put (transfer_to args) (u64_add toBalance (transfer_value args));;
  System_event "token.transfer"
    (transfer_event (transfer_from args) (transfer_to args) (transfer_value args))
    [transfer_to args; transfer_from args].

Definition _burn (args : burn_arguments) : M unit :=
  fromBalance ← balances_get (burn_from args);
  System_require (burn_value args <=? fromBalance)
    "account 'from' has insufficient balance";;
  supply_v ← supply_get;
  balances_put (burn_from args) (u64_sub fromBalance (burn_value args));;
  supply_put (u64_sub supply_v (burn_value args));;
  System_event "token.burn"
    (burn_event (burn_from args) (burn_value args))
    [burn_from args].

Section WithConstants.

(** [Constants.max_supply], a [u64] constant of [Constants.ts]. *)
Variable max_supply : Z.
Hypothesis max_supply_u64 : is_u64 max_supply.

Definition _mint (args : mint_arguments) : M unit :=
  supply_v ← supply_get;
  limit ← SafeMath_sub max_supply (mint_value args) "mint would overflow supply";
  System_require (supply_v <=? limit) "mint would overflow supply";;
  toBalance ← balances_get (mint_to args);
  balances_put (mint_to args) (u64_add toBalance (mint_value args));;
  supply_put (u64_add supply_v (mint_value args));;
  System_event "token.mint"
    (mint_event (mint_to args) (mint_value args))
    [mint_to args].

Definition approve (h : host) (args : approve_arguments) : M unit :=
  isAuthorized ← check_authority h (approve_owner args) false 0;
  System_require isAuthorized "approve operation not authorized";;
  _approve args.

Definition transfer (h : host) (args : transfer_arguments) : M unit :=
  isAuthorized ← check_authority h (transfer_from args) true (transfer_value args);
  System_require isAuthorized "from has not authorized transfer";;
  _transfer args.

Definition mint (h : host) (args : mint_arguments) : M unit :=
  isAuthorized ← check_authority h (contract_id h) false 0;
  System_require isAuthorized "owner has not authorized mint";;
  _mint args.

(** [burn]: the body is commented out in the source. *)
Definition burn (h : host) (args : burn_arguments) : M unit := mret tt.

(** ** One call as the host sees it *)

Inductive operation :=
  | Approve (args : approve_arguments)
  | Transfer (args : transfer_arguments)
  | Mint (args : mint_arguments)
  | Burn (args : burn_arguments).

Definition entry_point (h : host) (op : operation) : M unit :=
  match op with
  | Approve args => approve h args
  | Transfer args => transfer h args
  | Mint args => mint h args
  | Burn args => burn h args
  end.

(** The host keeps the writes of a call that returns and discards those of a
    call that fails ([System.require], [SafeMath], a trap). *)
Definition commit {A} (m : M A) (s : chain_state) : chain_state :=
  match m s with
  | Ok _ s' => s'
  | Fail _ _ => s
  end.

Definition exec (h : host) (op : operation) (s : chain_state) : chain_state :=
  commit (entry_point h op) s.

(** The [uint64] fields of decoded arguments are 64-bit values. *)
Definition op_value (op : operation) : Z :=
  match op with
  | Approve args => approve_value args
  | Transfer args => transfer_value args
  | Mint args => mint_value args
  | Burn args => burn_value args
  end.

(** States reachable from empty storage by calls of the four mutating
    entry points, each in a host context of its own. *)
Inductive reachable : chain_state → Prop :=
  | reachable_initial : reachable initial_state
  | reachable_exec h op s :
      reachable s → is_u64 (op_value op) → reachable (exec h op s).

(** ** What is proved about the ledger *)

Definition sum_balances (m : gmap bytes Z) : Z :=
  map_fold (λ _ v acc, v + acc) 0 m.

Definition ledger_inv (s : chain_state) : Prop :=
  sum_balances (balances s) = stored_supply s
  ∧ stored_supply s ≤ max_supply
  ∧ map_Forall (λ _ v, 0 ≤ v) (balances s)
  ∧ map_Forall (λ _ v, is_u64 v) (allowances s).

(** A piece of contract code keeps the invariant when every state it
    returns in satisfies it. *)
Definition preserves {A} (m : M A) : Prop :=
  ∀ s a s', ledger_inv s → m s = Ok a s' → ledger_inv s'.

(** The three ways an entry point reports failure to its caller. *)
Definition insufficient_balance : failure :=
  Revert "account 'from' has insufficient balance".
Definition supply_overflow : failure := Revert "mint would overflow supply".
Definition transfer_denied : failure := Revert "from has not authorized transfer".
Definition approve_denied : failure := Revert "approve operation not authorized".
Definition mint_denied : failure := Revert "owner has not authorized mint".

(** The storage key of the allowance of [spender] on [owner]: the 50-byte
    buffer after [key.set(owner, 0)] and [key.set(spender, 25)], when both
    copies fit. *)
Definition allowance_key (owner spender : bytes) : option bytes :=
  key ← Uint8Array_set (Uint8Array_new 50) owner 0;
  Uint8Array_set key spender 25.

(** [n] calls of the same entry point in the same host context. *)
Fixpoint exec_times (n : nat) (h : host) (op : operation) (s : chain_state)
  : chain_state :=
  match n with
  | O => s
  | S n' => exec_times n' h op (exec h op s)
  end.

End WithConstants.

(** Some concrete data: 25-byte addresses, hosts whose signatures are the
    public keys themselves, and a few small ledgers. *)
Definition addrA : bytes := replicate 25 x0a.
Definition addrB : bytes := replicate 25 x0b.
Definition addrC : bytes := replicate 25 x0c.
Definition addrT : bytes := replicate 25 x01.

Definition pad25 (pk : bytes) : bytes := take 25 (pk ++ replicate 25 x00).

Definition host_called_by (c : bytes) : host :=
  {| contract_id := addrT; caller := Some c;
     tx_signatures := Some []; tx_id := Some [];
     recoverPublicKey := λ sg _, Some sg; addressFromPublicKey := pad25 |}.

Definition host_signed_by (signers : list bytes) : host :=
  {| contract_id := addrT; caller := Some [];
     tx_signatures := Some signers; tx_id := Some [x2a];
     recoverPublicKey := λ sg _, Some sg; addressFromPublicKey := pad25 |}.

(** A ledger with a cap of 1000: the contract mints 100 to [addrA], then
    [addrA] approves [addrC] for 40 ([ledger1]) or for 0 ([ledger0]). *)
Definition cap : Z := 1000.

Definition minted : chain_state :=
  exec cap (host_called_by addrT) (Mint (MintArgs addrA 100)) initial_state.

Definition ledger1 : chain_state :=
  exec cap (host_called_by addrA) (Approve (ApproveArgs addrA addrC 40)) minted.

Definition ledger0 : chain_state :=
  exec cap (host_called_by addrA) (Approve (ApproveArgs addrA addrC 0)) minted.

(** [addrA] holds 100 and has approved [addrC] for 400, more than it holds. *)
Definition ledger2 : chain_state :=
  exec cap (host_called_by addrA) (Approve (ApproveArgs addrA addrC 400)) minted.

(** ** Further notions for the properties of the remaining code *)

(** A Koinos address: 25 bytes, one slot of the allowance key. *)
Definition is_address (a : bytes) : Prop := length a = 25%nat.

(** An event as [_approve], [_transfer] and [_mint] build it: the name and
    the impacted list that go with the payload.  Nothing builds a burn
    event outside [_burn]. *)
Definition event_well_formed (e : event) : Prop :=
  match event_payload e with
  | approve_event owner spender _ =>
      event_name e = "token.approve"%string ∧ event_impacted e = [spender; owner]
  | transfer_event from_ to_ _ =>
      event_name e = "token.transfer"%string ∧ event_impacted e = [to_; from_]
  | mint_event to_ _ =>
      event_name e = "token.mint"%string ∧ event_impacted e = [to_]
  | burn_event _ _ => False
  end.

(** What the event log says was minted. *)
Definition minted_value (e : event) : Z :=
  match event_payload e with
  | mint_event _ v => v
  | _ => 0
  end.

Definition minted_total (log : list event) : Z :=
  foldr (λ e acc, minted_value e + acc) 0 log.

Definition log_inv (s : chain_state) : Prop :=
  Forall event_well_formed (events s)
  ∧ minted_total (events s) = stored_supply s
  ∧ map_Forall (λ k _, length k = 50%nat) (allowances s).

(** The same host with [System.getCaller().caller] null. *)
Definition without_caller (h : host) : host :=
  {| contract_id := contract_id h; caller := None;
     tx_signatures := tx_signatures h; tx_id := tx_id h;
     recoverPublicKey := recoverPublicKey h;
     addressFromPublicKey := addressFromPublicKey h |}.

(** * Proofs *)

(** ** Running monadic code *)

Lemma bind_Ok {A B} (m : M A) (f : A → M B) s a s' :
  m s = Ok a s' → (m ≫= f) s = f a s'.
Proof. intros H. unfold mbind, M_bind. by rewrite H. Qed.

Lemma bind_Fail {A B} (m : M A) (f : A → M B) s e s' :
  m s = Fail e s' → (m ≫= f) s = Fail e s'.
Proof. intros H. unfold mbind, M_bind. by rewrite H. Qed.

Lemma commit_Ok {A} (m : M A) s a s' : m s = Ok a s' → commit m s = s'.
Proof. intros H. unfold commit. by rewrite H. Qed.

Lemma commit_Fail {A} (m : M A) s e s' : m s = Fail e s' → commit m s = s.
Proof. intros H. unfold commit. by rewrite H. Qed.

Ltac run :=
  unfold mbind, M_bind, mret, M_ret, fail, unwrap, System_require,
    SafeMath_sub, System_event, supply_get, supply_put, balances_get,
    balances_put, allowances_get, allowances_put; simpl.

Ltac split_inv := unfold ledger_inv; simpl; split; [|split; [|split]].

(** ** 64-bit arithmetic without wrap-around *)

Lemma u64_sub_exact a b : is_u64 a → 0 ≤ b ≤ a → u64_sub a b = a - b.
Proof.
  unfold is_u64, u64_sub. intros Ha Hb. apply Z.mod_small. lia.
Qed.

Lemma u64_add_exact a b : 0 ≤ a → 0 ≤ b → a + b < u64_modulus → u64_add a b = a + b.
Proof.
  unfold u64_add. intros Ha Hb Hlt. apply Z.mod_small. lia.
Qed.

Lemma u64_sub_range a b : is_u64 (u64_sub a b).
Proof. unfold is_u64, u64_sub. apply Z.mod_pos_bound. reflexivity. Qed.

Lemma u64_add_range a b : is_u64 (u64_add a b).
Proof. unfold is_u64, u64_add. apply Z.mod_pos_bound. reflexivity. Qed.

(** ** The sum of a balance map *)

Lemma sum_balances_empty : sum_balances ∅ = 0.
Proof. unfold sum_balances. apply map_fold_empty. Qed.

Lemma sum_balances_fresh (m : gmap bytes Z) k v :
  m !! k = None → sum_balances (<[k := v]> m) = v + sum_balances m.
Proof.
  intros Hk. unfold sum_balances.
  rewrite map_fold_insert_L; [done | intros; lia | done].
Qed.

Lemma sum_balances_lookup (m : gmap bytes Z) k v :
  m !! k = Some v → sum_balances m = v + sum_balances (delete k m).
Proof.
  intros Hk. unfold sum_balances.
  rewrite (map_fold_delete_L _ _ k v m); [done | intros; lia | done].
Qed.

Lemma sum_balances_insert (m : gmap bytes Z) k v :
  sum_balances (<[k := v]> m) = sum_balances m - default 0 (m !! k) + v.
Proof.
  destruct (m !! k) as [x|] eqn:Hk; simpl.
  - rewrite (sum_balances_lookup m k x Hk).
    rewrite <- (insert_delete_eq m k v).
    rewrite sum_balances_fresh by apply lookup_delete_eq. lia.
  - rewrite sum_balances_fresh by done. lia.
Qed.

Lemma sum_balances_nonneg (m : gmap bytes Z) :
  map_Forall (λ _ v, 0 ≤ v) m → 0 ≤ sum_balances m.
Proof.
  induction m as [|k v m Hk IH] using map_ind; intros Hall.
  - by rewrite sum_balances_empty.
  - rewrite sum_balances_fresh by done.
    apply map_Forall_insert in Hall as [Hv Hm]; [|done].
    specialize (IH Hm). lia.
Qed.

Lemma balance_le_sum (m : gmap bytes Z) k :
  map_Forall (λ _ v, 0 ≤ v) m → 0 ≤ default 0 (m !! k) ≤ sum_balances m.
Proof.
  intros Hall. destruct (m !! k) as [x|] eqn:Hk; simpl.
  - rewrite (sum_balances_lookup m k x Hk).
    pose proof (sum_balances_nonneg (delete k m) (map_Forall_delete _ _ _ Hall)).
    pose proof (Hall k x Hk) as Hx. simpl in Hx. lia.
  - pose proof (sum_balances_nonneg m Hall). lia.
Qed.

(** ** Building the allowance key *)

Lemma Uint8Array_set_length target source offset key :
  Uint8Array_set target source offset = Some key → length key = length target.
Proof.
  unfold Uint8Array_set. case_decide as Hfit; [|done].
  intros [= <-]. rewrite !length_app, length_take, length_drop. lia.
Qed.

Lemma Uint8Array_set_Some target source offset :
  (length source + offset ≤ length target)%nat →
  is_Some (Uint8Array_set target source offset).
Proof. intros Hfit. unfold Uint8Array_set. rewrite decide_True by done. eauto. Qed.

Lemma Uint8Array_set_None target source offset :
  (length target < length source + offset)%nat →
  Uint8Array_set target source offset = None.
Proof. intros Hfit. unfold Uint8Array_set. rewrite decide_False by lia. done. Qed.

Lemma owner_slot_Some (account : bytes) :
  (length account ≤ 50)%nat →
  is_Some (Uint8Array_set (Uint8Array_new 50) account 0).
Proof.
  intros Hlen. apply Uint8Array_set_Some.
  unfold Uint8Array_new. rewrite length_replicate. lia.
Qed.

Lemma allowance_key_Some (owner spender : bytes) :
  (length owner ≤ 50)%nat → (length spender ≤ 25)%nat →
  is_Some (allowance_key owner spender).
Proof.
  intros Ho Hs. unfold allowance_key.
  destruct (owner_slot_Some owner Ho) as [k Hk]. rewrite Hk. simpl.
  apply Uint8Array_set_Some. rewrite (Uint8Array_set_length _ _ _ _ Hk).
  unfold Uint8Array_new. rewrite length_replicate. lia.
Qed.

(** ** [getSigners] only reads the host *)

Lemma getSigners_loop_pure h txId sigs signers s :
  (∃ l, getSigners_loop h txId sigs signers s = Ok l s)
  ∨ getSigners_loop h txId sigs signers s = Fail Trap s.
Proof.
  revert signers. induction sigs as [|sg rest IH]; intros signers; simpl.
  - left. by eexists.
  - run. destruct (recoverPublicKey h sg txId) as [pk|]; [apply IH | by right].
Qed.

Lemma getSigners_pure h s :
  (∃ l, getSigners h s = Ok l s) ∨ getSigners h s = Fail Trap s.
Proof.
  unfold getSigners. run.
  destruct (tx_signatures h) as [sigs|]; [|by right].
  destruct (tx_id h) as [txId|]; [|by right].
  apply getSigners_loop_pure.
Qed.

Lemma getSigners_loop_state_irrelevant h txId sigs signers s s' l :
  getSigners_loop h txId sigs signers s = Ok l s →
  getSigners_loop h txId sigs signers s' = Ok l s'.
Proof.
  revert signers. induction sigs as [|sg rest IH]; intros signers; simpl.
  - run. by intros [= <-].
  - run. destruct (recoverPublicKey h sg txId) as [pk|]; [apply IH | done].
Qed.

Lemma getSigners_state_irrelevant h s s' l :
  getSigners h s = Ok l s → getSigners h s' = Ok l s'.
Proof.
  unfold getSigners. run.
  destruct (tx_signatures h) as [sigs|]; [|done].
  destruct (tx_id h) as [txId|]; [|done].
  apply getSigners_loop_state_irrelevant.
Qed.

Lemma getSigners_loop_derived h txId (P : bytes → Prop) sigs signers s l s' :
  (∀ pk, P (addressFromPublicKey h pk)) →
  Forall P signers →
  getSigners_loop h txId sigs signers s = Ok l s' → Forall P l.
Proof.
  intros HP. revert signers. induction sigs as [|sg rest IH]; intros signers Hs; simpl.
  - run. by intros [= <- _].
  - run. destruct (recoverPublicKey h sg txId) as [pk|]; [|done].
    apply IH. apply Forall_app. split; [done|]. by constructor.
Qed.

Lemma getSigners_derived h (P : bytes → Prop) s l s' :
  (∀ pk, P (addressFromPublicKey h pk)) →
  getSigners h s = Ok l s' → Forall P l.
Proof.
  intros HP. unfold getSigners. run.
  destruct (tx_signatures h) as [sigs|]; [|done].
  destruct (tx_id h) as [txId|]; [|done].
  by apply getSigners_loop_derived.
Qed.

(** ** [check_authority], path by path *)

Lemma existsb_Arrays_equal (account : bytes) signers :
  existsb (Arrays_equal account) signers = true ↔ account ∈ signers.
Proof.
  rewrite existsb_exists. unfold Arrays_equal. split.
  - intros (x & Hin & Heq). apply bool_decide_eq_true in Heq as ->.
    by apply list_elem_of_In.
  - intros Hin. exists account. split; [by apply list_elem_of_In|].
    by apply bool_decide_eq_true.
Qed.

(** With a calling contract and allowances not accepted: the caller must be
    the account. *)
Lemma check_authority_caller_plain h account amount c s :
  has_caller (caller h) = Some c →
  check_authority h account false amount s = Ok (Arrays_equal account c) s.
Proof.
  intros Hc. unfold check_authority. run. rewrite Hc. run.
  by destruct (Arrays_equal account c).
Qed.

(** With a calling contract and allowances accepted. *)
Lemma check_authority_caller_allowance h account amount c s :
  has_caller (caller h) = Some c →
  check_authority h account true amount s =
    match allowance_key account c with
    | None => Fail Trap s
    | Some key =>
        match allowances s !! key with
        | Some v =>
            if amount <=? v
            then Ok true (set_allowance key (u64_sub v amount) s)
            else Ok (Arrays_equal account c) s
        | None => Ok (Arrays_equal account c) s
        end
    end.
Proof.
  intros Hc. unfold check_authority, allowance_key, spend_allowance. run.
  destruct (Uint8Array_set (Uint8Array_new 50) account 0) as [k0|]; simpl; [|done].
  rewrite Hc. run.
  destruct (Uint8Array_set k0 c 25) as [key|]; simpl; [|done].
  destruct (allowances s !! key) as [v|]; simpl.
  - destruct (amount <=? v); simpl; [done|].
    by destruct (Arrays_equal account c).
  - by destruct (Arrays_equal account c).
Qed.

(** Without a calling contract. *)
Lemma check_authority_direct h account acceptAllowances amount s :
  has_caller (caller h) = None →
  check_authority h account acceptAllowances amount s =
    if acceptAllowances && bool_decide (Uint8Array_set (Uint8Array_new 50) account 0 = None)
    then Fail Trap s
    else match getSigners h s with
         | Ok signers _ => Ok (existsb (Arrays_equal account) signers) s
         | Fail e _ => Fail e s
         end.
Proof.
  intros Hc. unfold check_authority. run.
  destruct acceptAllowances; simpl.
  - destruct (Uint8Array_set (Uint8Array_new 50) account 0) as [k0|]; simpl; [|done].
    rewrite Hc.
    destruct (getSigners_pure h s) as [[l ->]| ->]; done.
  - rewrite Hc. destruct (getSigners_pure h s) as [[l ->]| ->]; done.
Qed.

(** Whatever the path, [check_authority] either leaves storage alone or
    returns [true] after reducing one existing allowance that covered
    [amount]. *)
Lemma check_authority_outcome h account acceptAllowances amount s :
  (∃ e, check_authority h account acceptAllowances amount s = Fail e s)
  ∨ (∃ b, check_authority h account acceptAllowances amount s = Ok b s)
  ∨ (∃ c key v,
        acceptAllowances = true ∧ has_caller (caller h) = Some c
        ∧ allowance_key account c = Some key
        ∧ allowances s !! key = Some v ∧ amount ≤ v
        ∧ check_authority h account acceptAllowances amount s
          = Ok true (set_allowance key (u64_sub v amount) s)).
Proof.
  destruct (has_caller (caller h)) as [c|] eqn:Hc.
  - destruct acceptAllowances.
    + rewrite (check_authority_caller_allowance _ _ _ _ _ Hc).
      destruct (allowance_key account c) as [key|] eqn:Hkey; [|left; by eexists].
      destruct (allowances s !! key) as [v|] eqn:Hv; [|right; left; by eexists].
      destruct (amount <=? v) eqn:Hle; [|right; left; by eexists].
      right. right. exists c, key, v. apply Z.leb_le in Hle. done.
    + rewrite (check_authority_caller_plain _ _ _ _ _ Hc). right. left. by eexists.
  - rewrite (check_authority_direct _ _ _ _ _ Hc).
    destruct (_ && _); [left; by eexists|].
    destruct (getSigners h s); [right; left | left]; by eexists.
Qed.

(** ** The ledger operations as equations *)

Lemma _transfer_eq args s :
  _transfer args s =
    let b := stored_balance s (transfer_from args) in
    if transfer_value args <=? b
    then
      let s1 := set_balance (transfer_from args) (u64_sub b (transfer_value args)) s in
      let s2 := set_balance (transfer_to args)
                  (u64_add (stored_balance s1 (transfer_to args)) (transfer_value args)) s1 in
      Ok tt (add_event
               (Event "token.transfer"
                  (transfer_event (transfer_from args) (transfer_to args) (transfer_value args))
                  [transfer_to args; transfer_from args]) s2)
    else Fail insufficient_balance s.
Proof.
  unfold _transfer. run.
  by destruct (transfer_value args <=? stored_balance s (transfer_from args)).
Qed.

Lemma _approve_eq args s :
  _approve args s =
    match allowance_key (approve_owner args) (approve_spender args) with
    | Some key =>
        Ok tt (add_event
                 (Event "token.approve"
                    (approve_event (approve_owner args) (approve_spender args)
                       (approve_value args))
                    [approve_spender args; approve_owner args])
                 (set_allowance key (approve_value args) s))
    | None => Fail Trap s
    end.
Proof.
  unfold _approve, allowance_key. run.
  destruct (Uint8Array_set (Uint8Array_new 50) (approve_owner args) 0) as [k0|];
    simpl; [|done].
  by destruct (Uint8Array_set k0 (approve_spender args) 25).
Qed.

Lemma allowance_eq args s :
  allowance args s =
    match allowance_key (allowance_owner args) (allowance_spender args) with
    | Some key => Ok (default 0 (allowances s !! key)) s
    | None => Fail Trap s
    end.
Proof.
  unfold allowance, allowance_key. run.
  destruct (Uint8Array_set (Uint8Array_new 50) (allowance_owner args) 0) as [k0|];
    simpl; [|done].
  destruct (Uint8Array_set k0 (allowance_spender args) 25) as [key|]; simpl; [|done].
  by destruct (allowances s !! key).
Qed.

Section Ledger.

Variable max_supply : Z.
Hypothesis max_supply_u64 : is_u64 max_supply.

Lemma _mint_eq args s :
  _mint max_supply args s =
    if (mint_value args >? max_supply)
       || negb (stored_supply s <=? max_supply - mint_value args)
    then Fail supply_overflow s
    else
      let s1 := set_balance (mint_to args)
                  (u64_add (stored_balance s (mint_to args)) (mint_value args)) s in
      let s2 := set_supply (u64_add (stored_supply s) (mint_value args)) s1 in
      Ok tt (add_event
               (Event "token.mint" (mint_event (mint_to args) (mint_value args))
                  [mint_to args]) s2).
Proof.
  unfold _mint. run.
  destruct (mint_value args >? max_supply); simpl; [done|].
  by destruct (stored_supply s <=? max_supply - mint_value args).
Qed.

(** ** The invariant is kept by every piece of contract code *)

Lemma preserves_bind {A B} (m : M A) (f : A → M B) :
  preserves max_supply m → (∀ a, preserves max_supply (f a)) → preserves max_supply (m ≫= f).
Proof.
  intros Hm Hf s b s' Hinv. unfold mbind, M_bind.
  destruct (m s) as [a s1|e s1] eqn:Hms; [|done].
  intros Hfs. eapply Hf; [|exact Hfs]. eapply Hm; [exact Hinv | exact Hms].
Qed.

Lemma preserves_require cond msg : preserves max_supply (System_require cond msg).
Proof.
  intros s a s' Hinv. unfold System_require. run.
  destruct cond; [by intros [= _ <-] | done].
Qed.

Lemma ledger_inv_initial : ledger_inv max_supply initial_state.
Proof.
  unfold ledger_inv, initial_state, stored_supply; simpl.
  rewrite sum_balances_empty. unfold is_u64 in max_supply_u64.
  split; [done|]. split; [lia|]. split; apply map_Forall_empty.
Qed.

Lemma ledger_inv_set_allowance key v s :
  is_u64 v → ledger_inv max_supply s → ledger_inv max_supply (set_allowance key v s).
Proof.
  intros Hv (Hsum & Hmax & Hbal & Hall).
  split_inv; try done. by apply map_Forall_insert_2.
Qed.

Lemma ledger_inv_add_event e s :
  ledger_inv max_supply s → ledger_inv max_supply (add_event e s).
Proof. intros (Hsum & Hmax & Hbal & Hall). by unfold ledger_inv. Qed.

Lemma preserves_check_authority h account acceptAllowances amount :
  preserves max_supply (check_authority h account acceptAllowances amount).
Proof.
  intros s b s' Hinv Hrun.
  destruct (check_authority_outcome h account acceptAllowances amount s)
    as [[e He]|[[b' Hb]|(c & key & v & _ & _ & _ & _ & _ & Hs)]].
  - congruence.
  - rewrite Hb in Hrun. by injection Hrun as _ <-.
  - rewrite Hs in Hrun. injection Hrun as _ <-.
    apply ledger_inv_set_allowance; [apply u64_sub_range | done].
Qed.

Lemma preserves__approve args :
  is_u64 (approve_value args) → preserves max_supply (_approve args).
Proof.
  intros Hv s a s' Hinv. rewrite _approve_eq.
  destruct (allowance_key _ _) as [key|]; [|done].
  intros [= _ <-]. by apply ledger_inv_add_event, ledger_inv_set_allowance.
Qed.

(** A transfer moves [value] inside the map: the debit cannot go below zero
    and the credit cannot pass the supply. *)
Lemma transfer_balances (m : gmap bytes Z) from_ to_ value :
  map_Forall (λ _ v, 0 ≤ v) m → sum_balances m < u64_modulus →
  0 ≤ value ≤ default 0 (m !! from_) →
  let m1 := <[from_ := u64_sub (default 0 (m !! from_)) value]> m in
  let m2 := <[to_ := u64_add (default 0 (m1 !! to_)) value]> m1 in
  sum_balances m2 = sum_balances m ∧ map_Forall (λ _ v, 0 ≤ v) m2
  ∧ default 0 (m2 !! from_) =
      (if decide (from_ = to_) then default 0 (m !! from_)
       else default 0 (m !! from_) - value)
  ∧ default 0 (m2 !! to_) =
      (if decide (from_ = to_) then default 0 (m !! from_)
       else default 0 (m !! to_) + value).
Proof.
  intros Hall Hsum Hv m1 m2.
  pose proof (balance_le_sum m from_ Hall) as Hfrom.
  assert (Hsub : u64_sub (default 0 (m !! from_)) value = default 0 (m !! from_) - value).
  { apply u64_sub_exact; unfold is_u64; lia. }
  assert (Hall1 : map_Forall (λ _ v, 0 ≤ v) m1).
  { subst m1. apply map_Forall_insert_2; [rewrite Hsub; lia | done]. }
  assert (Hsum1 : sum_balances m1 = sum_balances m - value).
  { subst m1. rewrite sum_balances_insert, Hsub. lia. }
  pose proof (balance_le_sum m1 to_ Hall1) as Hto.
  assert (Hadd : u64_add (default 0 (m1 !! to_)) value = default 0 (m1 !! to_) + value).
  { apply u64_add_exact; lia. }
  assert (Hm1to : default 0 (m1 !! to_) =
            if decide (from_ = to_) then default 0 (m !! from_) - value
            else default 0 (m !! to_)).
  { subst m1. case_decide as Heq.
    - subst to_. rewrite lookup_insert_eq. simpl. exact Hsub.
    - by rewrite lookup_insert_ne. }
  repeat split.
  - subst m2. rewrite sum_balances_insert, Hadd. lia.
  - subst m2. apply map_Forall_insert_2; [rewrite Hadd; lia | done].
  - subst m2. case_decide as Heq.
    + subst to_. rewrite lookup_insert_eq. simpl. rewrite Hadd, Hm1to. lia.
    + rewrite lookup_insert_ne by done. subst m1.
      rewrite lookup_insert_eq. simpl. exact Hsub.
  - subst m2. rewrite lookup_insert_eq. simpl. rewrite Hadd, Hm1to.
    case_decide; lia.
Qed.

Lemma preserves__transfer args :
  is_u64 (transfer_value args) → preserves max_supply (_transfer args).
Proof.
  intros Hv s a s' (Hsum & Hmax & Hbal & Hall). rewrite _transfer_eq. simpl.
  destruct (transfer_value args <=? _) eqn:Hle; [|done].
  apply Z.leb_le in Hle. intros [= _ <-].
  unfold is_u64 in *.
  destruct (transfer_balances (balances s) (transfer_from args) (transfer_to args)
              (transfer_value args)) as (Hsum' & Hall' & _).
  { done. } { lia. } { unfold stored_balance in Hle. lia. }
  unfold stored_balance. split_inv; try done.
  unfold stored_balance, set_balance in *; simpl in *. by rewrite Hsum'.
Qed.

Lemma preserves__mint args :
  is_u64 (mint_value args) → preserves max_supply (_mint max_supply args).
Proof.
  intros Hv s a s' (Hsum & Hmax & Hbal & Hall). rewrite _mint_eq. simpl.
  destruct (_ || _) eqn:Hguard; [done|].
  apply orb_false_iff in Hguard as [Hgt Hle].
  apply negb_false_iff, Z.leb_le in Hle.
  intros [= _ <-]. unfold is_u64 in *.
  pose proof (balance_le_sum (balances s) (mint_to args) Hbal) as Hto.
  pose proof (sum_balances_nonneg _ Hbal) as Hnn.
  unfold stored_balance.
  rewrite (u64_add_exact (default 0 _)) by lia.
  rewrite (u64_add_exact (stored_supply s)) by lia.
  split_inv; unfold stored_supply in *; simpl.
  - rewrite sum_balances_insert. lia.
  - lia.
  - apply map_Forall_insert_2; [lia | done].
  - done.
Qed.

Lemma preserves_entry_point h op :
  is_u64 (op_value op) → preserves max_supply (entry_point max_supply h op).
Proof.
  intros Hv. destruct op as [args|args|args|args]; simpl in *.
  - unfold approve. apply preserves_bind; [apply preserves_check_authority|].
    intros b. apply preserves_bind; [apply preserves_require|].
    intros _. by apply preserves__approve.
  - unfold transfer. apply preserves_bind; [apply preserves_check_authority|].
    intros b. apply preserves_bind; [apply preserves_require|].
    intros _. by apply preserves__transfer.
  - unfold mint. apply preserves_bind; [apply preserves_check_authority|].
    intros b. apply preserves_bind; [apply preserves_require|].
    intros _. by apply preserves__mint.
  - unfold burn. intros s a s' Hinv. run. by intros [= _ <-].
Qed.

Lemma ledger_inv_exec h op s :
  is_u64 (op_value op) → ledger_inv max_supply s →
  ledger_inv max_supply (exec max_supply h op s).
Proof.
  intros Hv Hinv. unfold exec, commit.
  destruct (entry_point max_supply h op s) as [a s'|e s'] eqn:Hrun; [|done].
  eapply preserves_entry_point; eauto.
Qed.

Lemma reachable_ledger_inv s : reachable max_supply s → ledger_inv max_supply s.
Proof.
  induction 1 as [|h op s Hreach IH Hv].
  - apply ledger_inv_initial.
  - by apply ledger_inv_exec.
Qed.

End Ledger.

(** ** The concrete ledgers are reachable *)

Lemma cap_u64 : is_u64 cap.
Proof. unfold is_u64, cap, u64_modulus. lia. Qed.

Lemma small_u64 v : 0 ≤ v ≤ 1000 → is_u64 v.
Proof. unfold is_u64, u64_modulus. lia. Qed.

Lemma minted_reachable : reachable cap minted.
Proof.
  unfold minted. apply reachable_exec; [apply reachable_initial|].
  apply small_u64. simpl. lia.
Qed.

Lemma ledger1_reachable : reachable cap ledger1.
Proof.
  unfold ledger1. apply reachable_exec; [apply minted_reachable|].
  apply small_u64. simpl. lia.
Qed.

Lemma ledger0_reachable : reachable cap ledger0.
Proof.
  unfold ledger0. apply reachable_exec; [apply minted_reachable|].
  apply small_u64. simpl. lia.
Qed.

Lemma ledger2_reachable : reachable cap ledger2.
Proof.
  unfold ledger2. apply reachable_exec; [apply minted_reachable|].
  apply small_u64. simpl. lia.
Qed.

Lemma pad25_length pk : length (pad25 pk) = 25%nat.
Proof.
  unfold pad25. rewrite length_take, length_app, length_replicate. lia.
Qed.

(** ** The scenarios of the test suite *)

(** Minting 123 as the contract itself. *)
Example scenario_mint :
  let s := exec cap (host_called_by addrT) (Mint (MintArgs addrA 123)) initial_state in
  stored_balance s addrA = 123 ∧ stored_supply s = 123
  ∧ events s = [Event "token.mint" (mint_event addrA 123) [addrA]].
Proof. vm_compute. done. Qed.

(** Minting as somebody else is refused. *)
Example scenario_mint_denied :
  mint cap (host_called_by addrB) (MintArgs addrB 123) initial_state
  = Fail mint_denied initial_state.
Proof. vm_compute. done. Qed.

(** [addrA] approves [addrC] for 500; [addrC] moves 300 to [addrB] and is
    refused the next 300. *)
Example scenario_allowance :
  let s0 := exec cap (host_called_by addrT) (Mint (MintArgs addrA 1000)) initial_state in
  let s1 := exec cap (host_called_by addrA) (Approve (ApproveArgs addrA addrC 500)) s0 in
  let s2 := exec cap (host_called_by addrC) (Transfer (TransferArgs addrA addrB 300)) s1 in
  allowances s1 !! (addrA ++ addrC) = Some 500
  ∧ allowances s2 !! (addrA ++ addrC) = Some 200
  ∧ stored_balance s2 addrA = 700 ∧ stored_balance s2 addrB = 300
  ∧ transfer (host_called_by addrC) (TransferArgs addrA addrB 300) s2
    = Fail transfer_denied s2.
Proof. vm_compute. done. Qed.

(** A transaction signed by [addrB] cannot move the tokens of [addrA]. *)
Example scenario_wrong_signer :
  transfer (host_signed_by [addrB]) (TransferArgs addrA addrB 10) minted
  = Fail transfer_denied minted.
Proof. vm_compute. done. Qed.

(** * The properties of the specification *)

(** C1. In every state reachable from empty storage by approve, transfer,
    mint and burn calls, the stored balances add up to what [total_supply]
    returns, and that value does not exceed [max_supply]. *)
Theorem supply_conservation (max_supply : Z) (s : chain_state) :
  is_u64 max_supply →
  reachable max_supply s →
  ∃ v, total_supply s = Ok v s
       ∧ sum_balances (balances s) = v
       ∧ v ≤ max_supply.
Proof.
  intros Hmax Hreach.
  destruct (reachable_ledger_inv max_supply Hmax s Hreach) as (Hsum & Hle & _).
  exists (stored_supply s). done.
Qed.

Lemma supply_conservation_witness :
  is_u64 cap ∧ reachable cap ledger1
  ∧ ∃ v, total_supply ledger1 = Ok v ledger1
         ∧ sum_balances (balances ledger1) = v ∧ v ≤ cap.
Proof.
  split; [apply cap_u64|]. split; [apply ledger1_reachable|].
  apply (supply_conservation cap ledger1); [apply cap_u64 | apply ledger1_reachable].
Defined.

(** C2. With an immediate calling contract [c], [check_authority] returns
    [true] exactly when allowances are accepted and the record of
    ([account], [c]) holds at least [amount], or [c] is the account.  The
    allowance is tried first and, when it is used, is written back reduced
    by [amount]; otherwise storage is untouched.  Nothing of the
    transaction's signatures enters the answer: any host with the same
    caller gets the same result. *)
Theorem check_authority_contract_path
    (max_supply : Z) (h : host) (account c : bytes)
    (acceptAllowances : bool) (amount : Z) (s : chain_state) :
  is_u64 max_supply →
  reachable max_supply s →
  is_u64 amount →
  has_caller (caller h) = Some c →
  (length c ≤ 25)%nat →
  let covered key v :=
    acceptAllowances = true ∧ allowance_key account c = Some key
    ∧ allowances s !! key = Some v ∧ amount ≤ v in
  ((∃ s', check_authority h account acceptAllowances amount s = Ok true s')
     ↔ (∃ key v, covered key v) ∨ c = account)
  ∧ (∀ key v, covered key v →
       check_authority h account acceptAllowances amount s
       = Ok true (set_allowance key (v - amount) s))
  ∧ ((¬ ∃ key v, covered key v) → c = account →
       check_authority h account acceptAllowances amount s = Ok true s)
  ∧ ((¬ ∃ key v, covered key v) → c ≠ account →
       check_authority h account acceptAllowances amount s = Ok false s
       ∨ check_authority h account acceptAllowances amount s = Fail Trap s)
  ∧ (∀ h', caller h' = caller h →
       check_authority h' account acceptAllowances amount s
       = check_authority h account acceptAllowances amount s).
Proof.
  intros Hmax Hreach Hamount Hc Hlen covered.
  destruct (reachable_ledger_inv max_supply Hmax s Hreach) as (_ & _ & _ & Hall).
  assert (Hexact : ∀ key v, allowances s !! key = Some v → amount ≤ v →
                     u64_sub v amount = v - amount).
  { intros key v Hv Hle. apply u64_sub_exact; [exact (Hall key v Hv)|].
    unfold is_u64 in Hamount. lia. }
  assert (Hsame : ∀ h', caller h' = caller h →
            check_authority h' account acceptAllowances amount s
            = check_authority h account acceptAllowances amount s).
  { intros h' Hh'. assert (Hc' : has_caller (caller h') = Some c) by by rewrite Hh'.
    destruct acceptAllowances.
    - by rewrite !check_authority_caller_allowance with (c := c).
    - by rewrite !check_authority_caller_plain with (c := c). }
  assert (Heq : Arrays_equal account c = bool_decide (c = account)).
  { unfold Arrays_equal. apply bool_decide_ext. naive_solver. }
  assert (Hplain : (¬ ∃ key v, covered key v) →
            check_authority h account acceptAllowances amount s
            = Ok (bool_decide (c = account)) s →
            ((∃ s', check_authority h account acceptAllowances amount s = Ok true s')
               ↔ (∃ key v, covered key v) ∨ c = account)
            ∧ (∀ key v, covered key v →
                 check_authority h account acceptAllowances amount s
                 = Ok true (set_allowance key (v - amount) s))
            ∧ ((¬ ∃ key v, covered key v) → c = account →
                 check_authority h account acceptAllowances amount s = Ok true s)
            ∧ ((¬ ∃ key v, covered key v) → c ≠ account →
                 check_authority h account acceptAllowances amount s = Ok false s
                 ∨ check_authority h account acceptAllowances amount s = Fail Trap s)).
  { intros Hno Hr. rewrite Hr. split.
    { split.
      - intros [s' [= Hb _]]. right. by apply bool_decide_eq_true in Hb.
      - intros [Hcov| ->]; [done|]. exists s. by rewrite bool_decide_true. }
    split; [intros key' v' Hcov; destruct Hno; eauto|].
    split; [intros _ ->; by rewrite bool_decide_true|].
    intros _ Hne. left. by rewrite bool_decide_false. }
  cut (((∃ s', check_authority h account acceptAllowances amount s = Ok true s')
          ↔ (∃ key v, covered key v) ∨ c = account)
       ∧ (∀ key v, covered key v →
            check_authority h account acceptAllowances amount s
            = Ok true (set_allowance key (v - amount) s))
       ∧ ((¬ ∃ key v, covered key v) → c = account →
            check_authority h account acceptAllowances amount s = Ok true s)
       ∧ ((¬ ∃ key v, covered key v) → c ≠ account →
            check_authority h account acceptAllowances amount s = Ok false s
            ∨ check_authority h account acceptAllowances amount s = Fail Trap s)).
  { intros (H1 & H2 & H3 & H4). done. }
  clear Hsame.
  destruct acceptAllowances.
  - pose proof (check_authority_caller_allowance h account amount c s Hc) as Hr.
    destruct (allowance_key account c) as [key|] eqn:Hkey.
    + destruct (allowances s !! key) as [v|] eqn:Hv.
      * destruct (amount <=? v) eqn:Hle.
        -- apply Z.leb_le in Hle. rewrite (Hexact key v Hv Hle) in Hr. rewrite Hr.
           assert (Hcov : ∃ key v, covered key v) by (exists key, v; done).
           split; [split; [by left | by eexists]|].
           split; [intros key' v' (_ & [= <-] & Hv' & _); congruence|].
           split; done.
        -- apply Z.leb_gt in Hle. rewrite Heq in Hr. apply Hplain; [|done].
           intros (key' & v' & _ & [= <-] & Hv' & Hle'). simplify_eq. lia.
      * rewrite Heq in Hr. apply Hplain; [|done].
        intros (key' & v' & _ & [= <-] & Hv' & _). congruence.
    + rewrite Hr.
      assert (Hno : ¬ ∃ key v, covered key v).
      { intros (key' & v' & _ & Hk & _). congruence. }
      assert (Hne : c ≠ account).
      { intros ->. destruct (allowance_key_Some account account) as [k Hk]; [lia|done|].
        congruence. }
      split.
      { split; [intros [s' Hs']; done | intros [Hcov|Heq']; done]. }
      split; [intros key' v' Hcov; destruct Hno; eauto|].
      split; [done|]. by right.
  - pose proof (check_authority_caller_plain h account amount c s Hc) as Hr.
    rewrite Heq in Hr. apply Hplain; [|done].
    intros (key' & v' & Hacc & _). done.
Qed.

Lemma check_authority_contract_path_witness :
  is_u64 cap ∧ reachable cap ledger1 ∧ is_u64 30
  ∧ has_caller (caller (host_called_by addrC)) = Some addrC
  ∧ (length addrC ≤ 25)%nat
  ∧ check_authority (host_called_by addrC) addrA true 30 ledger1
    = Ok true (set_allowance (addrA ++ addrC) (40 - 30) ledger1).
Proof.
  assert (H30 : is_u64 30) by (apply small_u64; lia).
  assert (Hlen : (length addrC ≤ 25)%nat) by (simpl; lia).
  repeat (split; [first [apply cap_u64 | apply ledger1_reachable | done]|]).
  destruct (check_authority_contract_path cap (host_called_by addrC) addrA addrC
              true 30 ledger1 cap_u64 ledger1_reachable H30 eq_refl Hlen)
    as (_ & Hspend & _).
  apply Hspend.
  split; [reflexivity|]. split; [reflexivity|].
  split; [vm_compute; reflexivity | lia].
Defined.

(** C3. Without an immediate calling contract, [check_authority] returns
    [true] exactly when [getSigners] returns and the account is among the
    signers.  Storage is the same afterwards whatever the outcome, and the
    outcome is the same in every storage, so no allowance is written or
    read, whatever [acceptAllowances] and [amount] are.  Addresses derived
    from public keys are 25 bytes long. *)
Theorem check_authority_direct_path
    (h : host) (account : bytes) (acceptAllowances : bool) (amount : Z)
    (s : chain_state) :
  has_caller (caller h) = None →
  (∀ pk, length (addressFromPublicKey h pk) = 25%nat) →
  ((∃ s', check_authority h account acceptAllowances amount s = Ok true s')
     ↔ ∃ signers, getSigners h s = Ok signers s ∧ account ∈ signers)
  ∧ ((∃ b, check_authority h account acceptAllowances amount s = Ok b s)
     ∨ (∃ e, check_authority h account acceptAllowances amount s = Fail e s))
  ∧ (∀ b s2, check_authority h account acceptAllowances amount s = Ok b s →
       check_authority h account acceptAllowances amount s2 = Ok b s2)
  ∧ (∀ signers, getSigners h s = Ok signers s → account ∈ signers →
       ∀ acceptAllowances' amount',
         check_authority h account acceptAllowances' amount' s = Ok true s).
Proof.
  intros Hc Haddr.
  assert (Hfits : ∀ signers s1, getSigners h s = Ok signers s1 → account ∈ signers →
            ∀ acc', acc' && bool_decide
                      (Uint8Array_set (Uint8Array_new 50) account 0 = None) = false).
  { intros signers s1 Hget Hin acc'.
    pose proof (getSigners_derived h (λ a, length a = 25%nat) s signers s1 Haddr Hget)
      as Hall.
    rewrite Forall_forall in Hall. specialize (Hall account Hin).
    destruct (owner_slot_Some account) as [k Hk]; [lia|].
    rewrite Hk. by rewrite andb_false_r. }
  assert (Hdirect : ∀ signers, getSigners h s = Ok signers s → account ∈ signers →
            ∀ acc' amount', check_authority h account acc' amount' s = Ok true s).
  { intros signers Hget Hin acc' amount'.
    rewrite (check_authority_direct _ _ _ _ _ Hc), (Hfits signers s Hget Hin), Hget.
    f_equal. by apply existsb_Arrays_equal. }
  split; [split|split; [|split]].
  - intros [s' Hs']. rewrite (check_authority_direct _ _ _ _ _ Hc) in Hs'.
    destruct (_ && _); [done|].
    destruct (getSigners_pure h s) as [[l Hl]|Hl]; rewrite Hl in Hs'; [|done].
    injection Hs' as Hb _. exists l. split; [done|]. by apply existsb_Arrays_equal.
  - intros (signers & Hget & Hin). exists s. by apply (Hdirect signers).
  - rewrite (check_authority_direct _ _ _ _ _ Hc).
    destruct (_ && _); [right; by eexists|].
    destruct (getSigners h s); [left | right]; by eexists.
  - intros b s2. rewrite !(check_authority_direct _ _ _ _ _ Hc).
    destruct (_ && _); [done|].
    destruct (getSigners_pure h s) as [[l Hl]|Hl]; rewrite Hl; [|done].
    intros [= <-]. by rewrite (getSigners_state_irrelevant h s s2 l Hl).
  - exact Hdirect.
Qed.

Lemma check_authority_direct_path_witness :
  has_caller (caller (host_signed_by [addrB; addrA])) = None
  ∧ (∀ pk, length (addressFromPublicKey (host_signed_by [addrB; addrA]) pk) = 25%nat)
  ∧ check_authority (host_signed_by [addrB; addrA]) addrA true 70 ledger1
    = Ok true ledger1.
Proof.
  split; [reflexivity|]. split; [exact pad25_length|].
  destruct (check_authority_direct_path (host_signed_by [addrB; addrA]) addrA
              true 70 ledger1 eq_refl pad25_length) as (_ & _ & _ & Hsigned).
  apply (Hsigned [addrB; addrA]); [reflexivity|].
  apply list_elem_of_In. simpl. tauto.
Defined.

(** ** Which entry point writes which allowance *)

Lemma spend_allowance_eq key amount s :
  spend_allowance key amount s =
    match allowances s !! key with
    | Some v =>
        if amount <=? v
        then Ok true (set_allowance key (u64_sub v amount) s)
        else Ok false s
    | None => Ok false s
    end.
Proof.
  unfold spend_allowance. run.
  destruct (allowances s !! key) as [v|]; simpl; [|done].
  by destruct (amount <=? v).
Qed.

Lemma _transfer_allowances args s :
  (∃ s', _transfer args s = Ok tt s' ∧ allowances s' = allowances s)
  ∨ _transfer args s = Fail insufficient_balance s.
Proof.
  rewrite _transfer_eq. simpl.
  destruct (transfer_value args <=? _); [left | by right].
  by eexists.
Qed.

Lemma _mint_allowances max_supply args s :
  (∃ s', _mint max_supply args s = Ok tt s' ∧ allowances s' = allowances s)
  ∨ _mint max_supply args s = Fail supply_overflow s.
Proof.
  rewrite _mint_eq. simpl.
  destruct (_ || _); [by right | left]. by eexists.
Qed.

Lemma require_true msg s : System_require true msg s = Ok tt s.
Proof. done. Qed.

Lemma require_false msg s : System_require false msg s = Fail (Revert msg) s.
Proof. done. Qed.

(** An entry point run after a successful authorization. *)
Lemma guarded_Ok (check : M bool) msg (body : M unit) s s1 :
  check s = Ok true s1 →
  (isAuthorized ← check; System_require isAuthorized msg;; body) s = body s1.
Proof. intros Hcheck. unfold mbind, M_bind. by rewrite Hcheck. Qed.

Lemma guarded_denied (check : M bool) msg (body : M unit) s s1 :
  check s = Ok false s1 →
  (isAuthorized ← check; System_require isAuthorized msg;; body) s
  = Fail (Revert msg) s1.
Proof. intros Hcheck. unfold mbind, M_bind. by rewrite Hcheck. Qed.

Lemma guarded_Fail (check : M bool) msg (body : M unit) s e s1 :
  check s = Fail e s1 →
  (isAuthorized ← check; System_require isAuthorized msg;; body) s = Fail e s1.
Proof. intros Hcheck. unfold mbind, M_bind. by rewrite Hcheck. Qed.

Lemma exec_transfer_allowances max_supply h args s :
  allowances (exec max_supply h (Transfer args) s) = allowances s
  ∨ ∃ c key v,
      has_caller (caller h) = Some c
      ∧ allowance_key (transfer_from args) c = Some key
      ∧ allowances s !! key = Some v ∧ transfer_value args ≤ v
      ∧ allowances (exec max_supply h (Transfer args) s)
        = <[key := u64_sub v (transfer_value args)]> (allowances s).
Proof.
  unfold exec, commit, entry_point, transfer.
  destruct (check_authority_outcome h (transfer_from args) true (transfer_value args) s)
    as [[e He]|[[b Hb]|(c & key & v & _ & Hc & Hkey & Hv & Hle & Hs)]].
  - rewrite (guarded_Fail _ _ _ _ _ _ He). by left.
  - left. destruct b.
    + rewrite (guarded_Ok _ _ _ _ _ Hb).
      by destruct (_transfer_allowances args s) as [(s' & -> & Hs')| ->].
    + by rewrite (guarded_denied _ _ _ _ _ Hb).
  - rewrite (guarded_Ok _ _ _ _ _ Hs).
    destruct (_transfer_allowances args (set_allowance key
                (u64_sub v (transfer_value args)) s)) as [(s' & -> & Hs')| ->].
    + right. exists c, key, v. by rewrite Hs'.
    + by left.
Qed.

Lemma exec_mint_allowances max_supply h args s :
  allowances (exec max_supply h (Mint args) s) = allowances s.
Proof.
  unfold exec, commit, entry_point, mint.
  destruct (check_authority_outcome h (contract_id h) false 0 s)
    as [[e He]|[[b Hb]|(c & key & v & Hacc & _)]]; [| |done].
  - by rewrite (guarded_Fail _ _ _ _ _ _ He).
  - destruct b.
    + rewrite (guarded_Ok _ _ _ _ _ Hb).
      by destruct (_mint_allowances max_supply args s) as [(s' & -> & Hs')| ->].
    + by rewrite (guarded_denied _ _ _ _ _ Hb).
Qed.

(** C4. The allowance spend of [check_authority] returns [true] exactly when
    the record exists and holds at least [amount]; it then stores the old
    value minus [amount], and the [allowance] query for an owner and spender
    with that key drops by exactly [amount]; otherwise it returns [false]
    and writes nothing.  [_transfer] itself leaves the allowance map as it
    was, and a whole transfer call changes the map by that one spend or not
    at all; mint and burn calls never change it. *)
Theorem spend_allowance_only_decrement
    (max_supply : Z) (key : bytes) (amount : Z) (s : chain_state) :
  is_u64 max_supply →
  reachable max_supply s →
  is_u64 amount →
  ((∃ s', spend_allowance key amount s = Ok true s')
     ↔ ∃ v, allowances s !! key = Some v ∧ amount ≤ v)
  ∧ (∀ v, allowances s !! key = Some v → amount ≤ v →
       spend_allowance key amount s = Ok true (set_allowance key (v - amount) s)
       ∧ ∀ owner spender, allowance_key owner spender = Some key →
           allowance (AllowanceArgs owner spender) s = Ok v s
           ∧ allowance (AllowanceArgs owner spender) (set_allowance key (v - amount) s)
             = Ok (v - amount) (set_allowance key (v - amount) s))
  ∧ ((¬ ∃ v, allowances s !! key = Some v ∧ amount ≤ v) →
       spend_allowance key amount s = Ok false s)
  ∧ (∀ args,
       (∃ s', _transfer args s = Ok tt s' ∧ allowances s' = allowances s)
       ∨ _transfer args s = Fail insufficient_balance s)
  ∧ (∀ h args, is_u64 (transfer_value args) →
       allowances (exec max_supply h (Transfer args) s) = allowances s
       ∨ ∃ c key' v,
           has_caller (caller h) = Some c
           ∧ allowance_key (transfer_from args) c = Some key'
           ∧ allowances s !! key' = Some v ∧ transfer_value args ≤ v
           ∧ allowances (exec max_supply h (Transfer args) s)
             = <[key' := v - transfer_value args]> (allowances s))
  ∧ (∀ h args, allowances (exec max_supply h (Mint args) s) = allowances s)
  ∧ (∀ h args, allowances (exec max_supply h (Burn args) s) = allowances s).
Proof.
  intros Hmax Hreach Hamount.
  destruct (reachable_ledger_inv max_supply Hmax s Hreach) as (_ & _ & _ & Hall).
  assert (Hexact : ∀ k v a, allowances s !! k = Some v → is_u64 a → a ≤ v →
                     u64_sub v a = v - a).
  { intros k v a Hv Ha Hle. apply u64_sub_exact; [exact (Hall k v Hv)|].
    unfold is_u64 in Ha. lia. }
  split; [|split; [|split; [|split; [|split; [|split]]]]].
  - rewrite spend_allowance_eq. split.
    + intros [s' Hs']. destruct (allowances s !! key) as [v|]; [|done].
      destruct (amount <=? v) eqn:Hle; [|done]. apply Z.leb_le in Hle. eauto.
    + intros (v & -> & Hle). apply Z.leb_le in Hle. rewrite Hle. by eexists.
  - intros v Hv Hle. split.
    + rewrite spend_allowance_eq, Hv. apply Z.leb_le in Hle as Hle'. rewrite Hle'.
      by rewrite (Hexact key v amount).
    + intros owner spender Hkey. rewrite !allowance_eq. simpl. rewrite Hkey.
      split; [by rewrite Hv|]. simpl. by rewrite lookup_insert_eq.
  - intros Hno. rewrite spend_allowance_eq.
    destruct (allowances s !! key) as [v|]; [|done].
    destruct (amount <=? v) eqn:Hle; [|done]. apply Z.leb_le in Hle.
    destruct Hno. eauto.
  - intros args. apply _transfer_allowances.
  - intros h args Hv.
    destruct (exec_transfer_allowances max_supply h args s)
      as [Hsame|(c & key' & v & Hc & Hkey & Hlook & Hle & Hs)]; [by left|].
    right. exists c, key', v. by rewrite <- (Hexact key' v (transfer_value args)).
  - intros h args. apply exec_mint_allowances.
  - done.
Qed.

Lemma spend_allowance_only_decrement_witness :
  is_u64 cap ∧ reachable cap ledger1 ∧ is_u64 30
  ∧ spend_allowance (addrA ++ addrC) 30 ledger1
    = Ok true (set_allowance (addrA ++ addrC) (40 - 30) ledger1).
Proof.
  assert (H30 : is_u64 30) by (apply small_u64; lia).
  split; [apply cap_u64|]. split; [apply ledger1_reachable|]. split; [done|].
  destruct (spend_allowance_only_decrement cap (addrA ++ addrC) 30 ledger1
              cap_u64 ledger1_reachable H30) as (_ & Hspend & _).
  apply (Hspend 40); [vm_compute; reflexivity | lia].
Defined.

(** ** What authorization leaves alone *)

Lemma check_authority_frame h account acceptAllowances amount s b s1 :
  check_authority h account acceptAllowances amount s = Ok b s1 →
  supply s1 = supply s ∧ balances s1 = balances s ∧ events s1 = events s.
Proof.
  intros Hrun.
  destruct (check_authority_outcome h account acceptAllowances amount s)
    as [[e He]|[[b' Hb]|(c & key & v & _ & _ & _ & _ & _ & Hs)]].
  - congruence.
  - rewrite Hb in Hrun. by injection Hrun as _ <-.
  - rewrite Hs in Hrun. by injection Hrun as _ <-.
Qed.

Lemma check_authority_plain_pure h account amount s b s1 :
  check_authority h account false amount s = Ok b s1 → s1 = s.
Proof.
  intros Hrun.
  destruct (check_authority_outcome h account false amount s)
    as [[e He]|[[b' Hb]|(c & key & v & Hacc & _)]]; [congruence| |done].
  rewrite Hb in Hrun. by injection Hrun as _ <-.
Qed.



(** C6. An authorized mint fails with the supply-overflow message exactly
    when the stored supply exceeds [max_supply - value], the difference taken
    without wrap-around, so that a value above [max_supply] fails too; the
    failed call leaves storage as it was.  Otherwise the call returns, the
    balance of [to] and the supply have both grown by [value], every other
    balance and every allowance is unchanged, and one [token.mint] event with
    impacted list [to] has been recorded.  Minting the largest 64-bit value
    into a non-empty supply fails. *)
Theorem mint_supply_cap
    (max_supply : Z) (h : host) (args : mint_arguments) (s : chain_state) :
  is_u64 max_supply →
  reachable max_supply s →
  is_u64 (mint_value args) →
  check_authority h (contract_id h) false 0 s = Ok true s →
  (mint max_supply h args s = Fail supply_overflow s
     ↔ stored_supply s > max_supply - mint_value args)
  ∧ (stored_supply s > max_supply - mint_value args →
       exec max_supply h (Mint args) s = s)
  ∧ (mint_value args > max_supply → mint max_supply h args s = Fail supply_overflow s)
  ∧ (stored_supply s ≤ max_supply - mint_value args →
       ∃ s', mint max_supply h args s = Ok tt s'
             ∧ exec max_supply h (Mint args) s = s'
             ∧ stored_balance s' (mint_to args)
               = stored_balance s (mint_to args) + mint_value args
             ∧ (∀ a, a ≠ mint_to args → stored_balance s' a = stored_balance s a)
             ∧ stored_supply s' = stored_supply s + mint_value args
             ∧ allowances s' = allowances s
             ∧ events s' = events s ++ [Event "token.mint"
                                          (mint_event (mint_to args) (mint_value args))
                                          [mint_to args]])
  ∧ (mint_value args = u64_MAX_VALUE → stored_supply s ≠ 0 →
       mint max_supply h args s = Fail supply_overflow s
       ∧ stored_supply (exec max_supply h (Mint args) s) = stored_supply s).
Proof.
  intros Hmax Hreach Hv Hauth.
  destruct (reachable_ledger_inv max_supply Hmax s Hreach) as (Hsum & Hle & Hbal & _).
  pose proof (sum_balances_nonneg _ Hbal) as Hnn.
  pose proof (balance_le_sum (balances s) (mint_to args) Hbal) as Hto.
  assert (Hrun : mint max_supply h args s = _mint max_supply args s).
  { unfold mint. by rewrite (guarded_Ok _ _ _ _ _ Hauth). }
  assert (Hover : stored_supply s > max_supply - mint_value args →
            mint max_supply h args s = Fail supply_overflow s).
  { intros Hgt. rewrite Hrun, _mint_eq.
    destruct (mint_value args >? max_supply); simpl; [done|].
    assert (Hleb : (stored_supply s <=? max_supply - mint_value args) = false)
      by (apply Z.leb_gt; lia).
    by rewrite Hleb. }
  assert (Hdiscard : stored_supply s > max_supply - mint_value args →
            exec max_supply h (Mint args) s = s).
  { intros Hgt. unfold exec. simpl. by rewrite (commit_Fail _ _ _ _ (Hover Hgt)). }
  unfold is_u64 in *.
  split; [|split; [|split; [|split]]].
  - split; [|exact Hover].
    rewrite Hrun, _mint_eq. destruct (_ || _) eqn:Hguard; [|done]. intros _.
    apply orb_true_iff in Hguard as [Hgt|Hgt].
    + apply Z.gtb_lt in Hgt. lia.
    + apply negb_true_iff, Z.leb_gt in Hgt. lia.
  - exact Hdiscard.
  - intros Hgt. apply Hover. lia.
  - intros Hfits.
    assert (Hguard : (mint_value args >? max_supply)
                     || negb (stored_supply s <=? max_supply - mint_value args) = false).
    { apply orb_false_iff. split.
      - apply not_true_is_false. intros Hgt. apply Z.gtb_lt in Hgt. lia.
      - apply negb_false_iff, Z.leb_le. lia. }
    eexists. split; [rewrite Hrun, _mint_eq, Hguard; reflexivity|].
    split.
    { unfold exec. simpl. eapply commit_Ok.
      rewrite Hrun, _mint_eq, Hguard. reflexivity. }
    unfold stored_balance, stored_supply in *. simpl.
    rewrite lookup_insert_eq. simpl.
    rewrite !u64_add_exact by lia.
    split; [done|]. split; [|done].
    intros a Hne. by rewrite lookup_insert_ne.
  - intros Hval Hnonzero. unfold u64_MAX_VALUE in Hval.
    assert (Hgt : stored_supply s > max_supply - mint_value args) by lia.
    split; [by apply Hover|]. by rewrite Hdiscard.
Qed.

Lemma mint_supply_cap_witness :
  is_u64 cap ∧ reachable cap minted ∧ is_u64 u64_MAX_VALUE
  ∧ check_authority (host_called_by addrT) (contract_id (host_called_by addrT)) false 0
      minted = Ok true minted
  ∧ mint cap (host_called_by addrT) (MintArgs addrB u64_MAX_VALUE) minted
    = Fail supply_overflow minted
  ∧ stored_supply (exec cap (host_called_by addrT)
                     (Mint (MintArgs addrB u64_MAX_VALUE)) minted)
    = stored_supply minted.
Proof.
  assert (Hv : is_u64 u64_MAX_VALUE) by (unfold is_u64, u64_MAX_VALUE, u64_modulus; lia).
  assert (Hauth : check_authority (host_called_by addrT)
                    (contract_id (host_called_by addrT)) false 0 minted
                  = Ok true minted) by (vm_compute; reflexivity).
  split; [apply cap_u64|]. split; [apply minted_reachable|].
  split; [exact Hv|]. split; [exact Hauth|].
  destruct (mint_supply_cap cap (host_called_by addrT) (MintArgs addrB u64_MAX_VALUE)
              minted cap_u64 minted_reachable Hv Hauth) as (_ & _ & _ & _ & Hmaxval).
  apply Hmaxval; [reflexivity | vm_compute; discriminate].
Defined.

(** C7. Whatever the arguments, the host context and the storage, [burn]
    returns without having touched a balance, an allowance, the supply or
    the event log; no caller and no signature is looked at, so it returns
    in hosts that authorize nothing as well. *)
Theorem burn_is_noop
    (max_supply : Z) (h : host) (args : burn_arguments) (s : chain_state) :
  burn h args s = Ok tt s
  ∧ exec max_supply h (Burn args) s = s
  ∧ events (exec max_supply h (Burn args) s) = events s
  ∧ (∀ h', burn h' args s = burn h args s).
Proof. done. Qed.

(** ** Repeated approvals *)

Lemma check_authority_plain_state_irrelevant h account amount s b s' :
  check_authority h account false amount s = Ok b s →
  check_authority h account false amount s' = Ok b s'.
Proof.
  destruct (has_caller (caller h)) as [c|] eqn:Hc.
  - rewrite !(check_authority_caller_plain _ _ _ _ _ Hc). by intros [= <-].
  - rewrite !(check_authority_direct _ _ _ _ _ Hc). simpl.
    destruct (getSigners_pure h s) as [[l Hl]|Hl]; rewrite Hl; [|done].
    intros [= <-]. by rewrite (getSigners_state_irrelevant h s s' l Hl).
Qed.

Lemma approve_authorized h args key s :
  check_authority h (approve_owner args) false 0 s = Ok true s →
  allowance_key (approve_owner args) (approve_spender args) = Some key →
  approve h args s
  = Ok tt (add_event
             (Event "token.approve"
                (approve_event (approve_owner args) (approve_spender args)
                   (approve_value args))
                [approve_spender args; approve_owner args])
             (set_allowance key (approve_value args) s)).
Proof.
  intros Hauth Hkey. unfold approve.
  by rewrite (guarded_Ok _ _ _ _ _ Hauth), _approve_eq, Hkey.
Qed.

Lemma exec_times_approve max_supply h args key n s :
  check_authority h (approve_owner args) false 0 s = Ok true s →
  allowance_key (approve_owner args) (approve_spender args) = Some key →
  exec_times max_supply (S n) h (Approve args) s
  = {| supply := supply s; balances := balances s;
       allowances := <[key := approve_value args]> (allowances s);
       events := events s ++
         replicate (S n)
           (Event "token.approve"
              (approve_event (approve_owner args) (approve_spender args)
                 (approve_value args))
              [approve_spender args; approve_owner args]) |}.
Proof.
  intros Hauth Hkey. revert s Hauth.
  induction n as [|n IH]; intros s Hauth.
  - simpl. unfold exec. simpl.
    by rewrite (commit_Ok _ _ _ _ (approve_authorized h args key s Hauth Hkey)).
  - change (exec_times max_supply (S (S n)) h (Approve args) s)
      with (exec_times max_supply (S n) h (Approve args)
              (exec max_supply h (Approve args) s)).
    rewrite IH by (eapply check_authority_plain_state_irrelevant; exact Hauth).
    unfold exec. simpl.
    rewrite (commit_Ok _ _ _ _ (approve_authorized h args key s Hauth Hkey)).
    simpl. rewrite insert_insert_eq. f_equal.
    by rewrite <- app_assoc.
Qed.

(** C8. An authorized approve of an owner and a spender that fit their slots
    of the key stores [value] under the key of the pair, whatever was or was
    not stored there, and records one [token.approve] event carrying the
    three arguments with impacted list [spender; owner].  After any number
    [n + 1] of such calls the [allowance] query returns [value], and
    [n + 1] such events have been added. *)
Theorem approve_overwrites
    (max_supply : Z) (h : host) (args : approve_arguments) (s : chain_state) :
  check_authority h (approve_owner args) false 0 s = Ok true s →
  (length (approve_owner args) ≤ 50)%nat →
  (length (approve_spender args) ≤ 25)%nat →
  let ev := Event "token.approve"
              (approve_event (approve_owner args) (approve_spender args)
                 (approve_value args))
              [approve_spender args; approve_owner args] in
  ∃ key,
    allowance_key (approve_owner args) (approve_spender args) = Some key
    ∧ approve h args s = Ok tt (add_event ev (set_allowance key (approve_value args) s))
    ∧ (∀ n,
         let s' := exec_times max_supply (S n) h (Approve args) s in
         allowances s' = <[key := approve_value args]> (allowances s)
         ∧ allowance (AllowanceArgs (approve_owner args) (approve_spender args)) s'
           = Ok (approve_value args) s'
         ∧ events s' = events s ++ replicate (S n) ev
         ∧ supply s' = supply s ∧ balances s' = balances s).
Proof.
  intros Hauth Howner Hspender ev.
  destruct (allowance_key_Some _ _ Howner Hspender) as [key Hkey].
  exists key. split; [done|]. split; [by apply approve_authorized|].
  intros n s'. subst s'.
  rewrite (exec_times_approve max_supply h args key n s Hauth Hkey). simpl.
  split; [done|]. split; [|done].
  rewrite allowance_eq. simpl. rewrite Hkey. simpl. by rewrite lookup_insert_eq.
Qed.

Lemma approve_overwrites_witness :
  check_authority (host_called_by addrA) addrA false 0 ledger1 = Ok true ledger1
  ∧ (length addrA ≤ 50)%nat ∧ (length addrC ≤ 25)%nat
  ∧ ∃ s', exec_times cap 3 (host_called_by addrA)
            (Approve (ApproveArgs addrA addrC 7)) ledger1 = s'
          ∧ allowance (AllowanceArgs addrA addrC) s' = Ok 7 s'.
Proof.
  assert (Hauth : check_authority (host_called_by addrA) addrA false 0 ledger1
                  = Ok true ledger1) by (vm_compute; reflexivity).
  assert (HlenA : (length addrA ≤ 50)%nat) by (simpl; lia).
  assert (HlenC : (length addrC ≤ 25)%nat) by (simpl; lia).
  split; [exact Hauth|]. split; [exact HlenA|]. split; [exact HlenC|].
  destruct (approve_overwrites cap (host_called_by addrA) (ApproveArgs addrA addrC 7)
              ledger1 Hauth HlenA HlenC) as (key & _ & _ & Hrepeat).
  destruct (Hrepeat 2%nat) as (_ & Hquery & _).
  eexists. split; [reflexivity | exact Hquery].
Defined.

(** C9. A transfer of zero through a calling contract [c] that is not
    [from] returns exactly when storage holds a record under the key of
    ([from], [c]), a record with value 0 included; without the record it
    fails with the message of a denied authorization.  The [allowance] query
    answers 0 both for the missing record and for the record with value 0. *)
Theorem zero_transfer_needs_record
    (max_supply : Z) (h : host) (args : transfer_arguments) (c : bytes)
    (s : chain_state) :
  is_u64 max_supply →
  reachable max_supply s →
  has_caller (caller h) = Some c →
  c ≠ transfer_from args →
  transfer_value args = 0 →
  (length (transfer_from args) ≤ 50)%nat →
  (length c ≤ 25)%nat →
  ∃ key,
    allowance_key (transfer_from args) c = Some key
    ∧ ((∃ s', transfer h args s = Ok tt s') ↔ is_Some (allowances s !! key))
    ∧ (allowances s !! key = None →
         transfer h args s = Fail transfer_denied s
         ∧ allowance (AllowanceArgs (transfer_from args) c) s = Ok 0 s)
    ∧ (allowances s !! key = Some 0 →
         (∃ s', transfer h args s = Ok tt s')
         ∧ allowance (AllowanceArgs (transfer_from args) c) s = Ok 0 s).
Proof.
  intros Hmax Hreach Hc Hne Hzero Hfrom Hlen.
  destruct (reachable_ledger_inv max_supply Hmax s Hreach) as (_ & _ & Hbal & Hall).
  destruct (allowance_key_Some _ _ Hfrom Hlen) as [key Hkey].
  pose proof (check_authority_caller_allowance h (transfer_from args)
                (transfer_value args) c s Hc) as Hauth.
  rewrite Hkey, Hzero in Hauth.
  assert (Hquery : allowance (AllowanceArgs (transfer_from args) c) s
                   = Ok (default 0 (allowances s !! key)) s).
  { rewrite allowance_eq. simpl. by rewrite Hkey. }
  assert (Hpresent : ∀ v, allowances s !! key = Some v →
            ∃ s', transfer h args s = Ok tt s').
  { intros v Hv. rewrite Hv in Hauth.
    assert (Hnn : (0 <=? v) = true).
    { apply Z.leb_le. pose proof (Hall key v Hv) as Hu. unfold is_u64 in Hu. lia. }
    rewrite Hnn in Hauth. unfold transfer. rewrite Hzero.
    rewrite (guarded_Ok _ _ _ _ _ Hauth), _transfer_eq. simpl. rewrite Hzero.
    assert (Hfunds : (0 <=? stored_balance (set_allowance key (u64_sub v 0) s)
                              (transfer_from args)) = true).
    { apply Z.leb_le. unfold stored_balance. simpl.
      pose proof (balance_le_sum (balances s) (transfer_from args) Hbal). lia. }
    rewrite Hfunds. by eexists. }
  assert (Habsent : allowances s !! key = None →
            transfer h args s = Fail transfer_denied s).
  { intros Hv. rewrite Hv in Hauth.
    assert (Hneq : Arrays_equal (transfer_from args) c = false).
    { unfold Arrays_equal. apply bool_decide_eq_false. congruence. }
    rewrite Hneq in Hauth. unfold transfer. rewrite Hzero.
    by rewrite (guarded_denied _ _ _ _ _ Hauth). }
  exists key. split; [done|]. split; [split|split].
  - intros [s' Hs']. destruct (allowances s !! key) as [v|] eqn:Hv; [by eexists|].
    rewrite (Habsent eq_refl) in Hs'. done.
  - intros [v Hv]. by apply (Hpresent v).
  - intros Hv. split; [by apply Habsent|]. by rewrite Hquery, Hv.
  - intros Hv. split; [by apply (Hpresent 0)|]. by rewrite Hquery, Hv.
Qed.

Lemma zero_transfer_needs_record_witness :
  is_u64 cap ∧ reachable cap ledger0
  ∧ has_caller (caller (host_called_by addrC)) = Some addrC
  ∧ addrC ≠ addrA
  ∧ allowances ledger0 !! (addrA ++ addrC) = Some 0
  ∧ allowance (AllowanceArgs addrA addrC) ledger0 = Ok 0 ledger0
  ∧ ∃ s', transfer (host_called_by addrC) (TransferArgs addrA addrB 0) ledger0
          = Ok tt s'.
Proof.
  assert (Hne : addrC ≠ addrA) by discriminate.
  assert (HlenA : (length addrA ≤ 50)%nat) by (simpl; lia).
  assert (HlenC : (length addrC ≤ 25)%nat) by (simpl; lia).
  assert (Hrec : allowances ledger0 !! (addrA ++ addrC) = Some 0)
    by (vm_compute; reflexivity).
  split; [apply cap_u64|]. split; [apply ledger0_reachable|].
  split; [reflexivity|]. split; [exact Hne|]. split; [exact Hrec|].
  destruct (zero_transfer_needs_record cap (host_called_by addrC)
              (TransferArgs addrA addrB 0) addrC ledger0 cap_u64 ledger0_reachable
              eq_refl Hne eq_refl HlenA HlenC) as (key & Hkey & _ & _ & Hzero).
  injection Hkey as <-.
  destruct (Hzero Hrec) as [Hrun Hquery]. split; [exact Hquery | exact Hrun].
Defined.

(** C10. A transfer from an account to itself that passes authorization and
    is covered by the balance returns; afterwards [balance_of] answers for
    every account what it answered before, [total_supply] too, and the
    stored balances add up to the same sum: the credit is computed from the
    balance read back after the debit was written. *)
Theorem self_transfer_neutral
    (max_supply : Z) (h : host) (account : bytes) (value : Z) (s s1 : chain_state) :
  is_u64 max_supply →
  reachable max_supply s →
  is_u64 value →
  value ≤ stored_balance s account →
  check_authority h account true value s = Ok true s1 →
  ∃ s', transfer h (TransferArgs account account value) s = Ok tt s'
        ∧ exec max_supply h (Transfer (TransferArgs account account value)) s = s'
        ∧ (∀ a, balance_of a s' = Ok (stored_balance s a) s')
        ∧ total_supply s' = Ok (stored_supply s) s'
        ∧ sum_balances (balances s') = sum_balances (balances s).
Proof.
  intros Hmax Hreach Hv Hfunds Hauth.
  destruct (reachable_ledger_inv max_supply Hmax s Hreach) as (Hsum & Hle & Hbal & _).
  destruct (check_authority_frame _ _ _ _ _ _ _ Hauth) as (Hsup1 & Hbal1 & _).
  unfold is_u64 in *.
  destruct (transfer_balances (balances s) account account value)
    as (Hsum' & _ & Hfrom' & _); [done | lia | unfold stored_balance in Hfunds; lia |].
  rewrite decide_True in Hfrom' by done.
  assert (Hrun : transfer h (TransferArgs account account value) s
                 = _transfer (TransferArgs account account value) s1).
  { unfold transfer. simpl. by rewrite (guarded_Ok _ _ _ _ _ Hauth). }
  rewrite _transfer_eq in Hrun. simpl in Hrun.
  assert (Hleb : (value <=? stored_balance s1 account) = true).
  { apply Z.leb_le. unfold stored_balance in *. by rewrite Hbal1. }
  rewrite Hleb in Hrun.
  eexists. split; [exact Hrun|]. split.
  { unfold exec. simpl. by rewrite (commit_Ok _ _ _ _ Hrun). }
  unfold balance_of, balances_get, total_supply, supply_get,
    stored_balance, stored_supply in *. simpl. rewrite Hbal1, Hsup1.
  split; [|split; [done|exact Hsum']].
  intros a. f_equal. destruct (decide (a = account)) as [->|Hne].
  - exact Hfrom'.
  - by rewrite !lookup_insert_ne.
Qed.

Lemma self_transfer_neutral_witness :
  is_u64 cap ∧ reachable cap ledger1 ∧ is_u64 60
  ∧ 60 ≤ stored_balance ledger1 addrA
  ∧ check_authority (host_called_by addrA) addrA true 60 ledger1 = Ok true ledger1
  ∧ ∃ s', transfer (host_called_by addrA) (TransferArgs addrA addrA 60) ledger1
          = Ok tt s'
          ∧ balance_of addrA s' = Ok 100 s'.
Proof.
  assert (H60 : is_u64 60) by (apply small_u64; lia).
  assert (Hfunds : 60 ≤ stored_balance ledger1 addrA) by (vm_compute; discriminate).
  assert (Hauth : check_authority (host_called_by addrA) addrA true 60 ledger1
                  = Ok true ledger1) by (vm_compute; reflexivity).
  split; [apply cap_u64|]. split; [apply ledger1_reachable|].
  split; [exact H60|]. split; [exact Hfunds|]. split; [exact Hauth|].
  destruct (self_transfer_neutral cap (host_called_by addrA) addrA 60 ledger1 ledger1
              cap_u64 ledger1_reachable H60 Hfunds Hauth)
    as (s' & Hrun & _ & Hbalance & _).
  exists s'. split; [exact Hrun|]. exact (Hbalance addrA).
Defined.

(** * Properties of the remaining code *)

(** ** The layout of the allowance key *)

Lemma allowance_key_length owner spender key :
  allowance_key owner spender = Some key → length key = 50%nat.
Proof.
  unfold allowance_key.
  destruct (Uint8Array_set (Uint8Array_new 50) owner 0) as [k0|] eqn:Hk0; [|done].
  simpl. intros Hkey.
  rewrite (Uint8Array_set_length _ _ _ _ Hkey), (Uint8Array_set_length _ _ _ _ Hk0).
  unfold Uint8Array_new. by rewrite length_replicate.
Qed.

Lemma allowance_key_None owner spender :
  (50 < length owner)%nat ∨ (25 < length spender)%nat →
  allowance_key owner spender = None.
Proof.
  intros Hlong. unfold allowance_key.
  destruct (Uint8Array_set (Uint8Array_new 50) owner 0) as [k0|] eqn:Hk0; [|done].
  simpl. apply Uint8Array_set_None.
  rewrite (Uint8Array_set_length _ _ _ _ Hk0).
  unfold Uint8Array_new. rewrite length_replicate.
  destruct Hlong as [Ho|Hs]; [|lia].
  unfold Uint8Array_set in Hk0. rewrite decide_False in Hk0; [done|].
  unfold Uint8Array_new. rewrite length_replicate. lia.
Qed.

(** X1. With a 25-byte spender and an owner of at most 50 bytes, the key is
    the owner cut or zero-padded to 25 bytes, followed by the spender: the
    bytes of the owner past the 25th are overwritten by the spender. *)
Theorem allowance_key_layout (owner spender : bytes) :
  (length owner ≤ 50)%nat →
  is_address spender →
  allowance_key owner spender
  = Some (take 25 (owner ++ replicate 25 x00) ++ spender).
Proof.
  unfold is_address. intros Ho Hs.
  assert (Hk0 : Uint8Array_set (Uint8Array_new 50) owner 0
                = Some (owner ++ replicate (50 - length owner) x00)).
  { unfold Uint8Array_set, Uint8Array_new.
    rewrite length_replicate, decide_True by lia.
    by rewrite take_0, Nat.add_0_l, drop_replicate. }
  unfold allowance_key. rewrite Hk0. cbn [mbind option_bind].
  unfold Uint8Array_set.
  rewrite decide_True by (rewrite length_app, length_replicate; lia).
  f_equal.
  rewrite (drop_ge _ (25 + length spender))
    by (rewrite length_app, length_replicate; lia).
  rewrite app_nil_r. f_equal.
  rewrite !take_app, !take_replicate. do 2 f_equal. lia.
Qed.

Lemma allowance_key_layout_witness :
  (length (addrA ++ [x07; x08]) ≤ 50)%nat ∧ is_address addrC
  ∧ allowance_key (addrA ++ [x07; x08]) addrC = Some (addrA ++ addrC).
Proof.
  assert (Ho : (length (addrA ++ [x07; x08]) ≤ 50)%nat) by (simpl; lia).
  assert (Hs : is_address addrC) by reflexivity.
  split; [exact Ho|]. split; [exact Hs|].
  exact (allowance_key_layout (addrA ++ [x07; x08]) addrC Ho Hs).
Defined.

Lemma allowance_key_address owner spender :
  is_address owner → is_address spender →
  allowance_key owner spender = Some (owner ++ spender).
Proof.
  unfold is_address. intros Ho Hs.
  rewrite allowance_key_layout by (unfold is_address; lia).
  by rewrite take_app_length'.
Qed.

(** X2. Two pairs of 25-byte addresses have the same allowance key only when
    they are the same pair. *)
Theorem allowance_key_injective (owner1 spender1 owner2 spender2 : bytes) :
  is_address owner1 → is_address spender1 →
  is_address owner2 → is_address spender2 →
  allowance_key owner1 spender1 = allowance_key owner2 spender2 →
  owner1 = owner2 ∧ spender1 = spender2.
Proof.
  intros Ho1 Hs1 Ho2 Hs2.
  rewrite !allowance_key_address by done. intros [= Heq].
  apply app_inj_1 in Heq; [done|]. unfold is_address in *. congruence.
Qed.

Lemma allowance_key_injective_witness :
  is_address addrA ∧ is_address addrC
  ∧ allowance_key addrA addrC = allowance_key addrA addrC
  ∧ addrA = addrA ∧ addrC = addrC.
Proof.
  split; [reflexivity|]. split; [reflexivity|]. split; [reflexivity|].
  exact (allowance_key_injective addrA addrC addrA addrC
           eq_refl eq_refl eq_refl eq_refl eq_refl).
Defined.

(** ** What a call can do to storage *)

Lemma exec_guarded (check : M bool) msg (body : M unit) s :
  commit (isAuthorized ← check; System_require isAuthorized msg;; body) s = s
  ∨ ∃ s1 s', check s = Ok true s1 ∧ body s1 = Ok tt s'
             ∧ commit (isAuthorized ← check; System_require isAuthorized msg;; body) s = s'.
Proof.
  destruct (check s) as [[|] s1|e s1] eqn:Hcheck.
  - destruct (body s1) as [[] s'|e s'] eqn:Hbody.
    + right. exists s1, s'. split; [done|]. split; [done|].
      eapply commit_Ok. by rewrite (guarded_Ok _ _ _ _ _ Hcheck).
    + left. eapply commit_Fail. by rewrite (guarded_Ok _ _ _ _ _ Hcheck).
  - left. eapply commit_Fail. by rewrite (guarded_denied _ _ _ _ _ Hcheck).
  - left. eapply commit_Fail. by rewrite (guarded_Fail _ _ _ _ _ _ Hcheck).
Qed.

Lemma exec_approve_cases max_supply h args s :
  exec max_supply h (Approve args) s = s
  ∨ ∃ key,
      check_authority h (approve_owner args) false 0 s = Ok true s
      ∧ allowance_key (approve_owner args) (approve_spender args) = Some key
      ∧ exec max_supply h (Approve args) s
        = add_event
            (Event "token.approve"
               (approve_event (approve_owner args) (approve_spender args)
                  (approve_value args))
               [approve_spender args; approve_owner args])
            (set_allowance key (approve_value args) s).
Proof.
  unfold exec, entry_point, approve.
  destruct (exec_guarded (check_authority h (approve_owner args) false 0)
              "approve operation not authorized" (_approve args) s)
    as [Hs|(s1 & s' & Hcheck & Hbody & Hs)]; [by left|].
  pose proof (check_authority_plain_pure _ _ _ _ _ _ Hcheck) as ->.
  rewrite _approve_eq in Hbody.
  destruct (allowance_key _ _) as [key|]; [|done].
  right. exists key. injection Hbody as <-. done.
Qed.

Lemma exec_transfer_cases max_supply h args s :
  exec max_supply h (Transfer args) s = s
  ∨ ∃ s1 s',
      check_authority h (transfer_from args) true (transfer_value args) s = Ok true s1
      ∧ _transfer args s1 = Ok tt s'
      ∧ exec max_supply h (Transfer args) s = s'.
Proof.
  unfold exec, entry_point, transfer. apply exec_guarded.
Qed.

Lemma exec_mint_cases max_supply h args s :
  exec max_supply h (Mint args) s = s
  ∨ ∃ s',
      check_authority h (contract_id h) false 0 s = Ok true s
      ∧ _mint max_supply args s = Ok tt s'
      ∧ exec max_supply h (Mint args) s = s'.
Proof.
  unfold exec, entry_point, mint.
  destruct (exec_guarded (check_authority h (contract_id h) false 0)
              "owner has not authorized mint" (_mint max_supply args) s)
    as [Hs|(s1 & s' & Hcheck & Hbody & Hs)]; [by left|].
  pose proof (check_authority_plain_pure _ _ _ _ _ _ Hcheck) as ->.
  right. by exists s'.
Qed.

(** Who passes [check_authority] when allowances are not accepted. *)
Lemma check_authority_plain_true h account amount s s' :
  check_authority h account false amount s = Ok true s' →
  has_caller (caller h) = Some account
  ∨ (has_caller (caller h) = None
     ∧ ∃ signers, getSigners h s = Ok signers s ∧ account ∈ signers).
Proof.
  destruct (has_caller (caller h)) as [c|] eqn:Hc.
  - rewrite (check_authority_caller_plain _ _ _ _ _ Hc). intros [= Heq _].
    left. unfold Arrays_equal in Heq. apply bool_decide_eq_true in Heq. by subst.
  - rewrite (check_authority_direct _ _ _ _ _ Hc). simpl.
    destruct (getSigners_pure h s) as [[l Hl]|Hl]; rewrite Hl; [|done].
    intros [= Hin _]. right. split; [done|]. exists l. split; [done|].
    by apply existsb_Arrays_equal.
Qed.

(** X3. An approve call, whether it goes through or not, leaves the
    [allowance] answer of every other pair of 25-byte addresses, every
    balance and the supply as they were. *)
Theorem approve_frame
    (max_supply : Z) (h : host) (args : approve_arguments)
    (owner' spender' : bytes) (s : chain_state) :
  is_address (approve_owner args) → is_address (approve_spender args) →
  is_address owner' → is_address spender' →
  (owner', spender') ≠ (approve_owner args, approve_spender args) →
  let s' := exec max_supply h (Approve args) s in
  (∃ v, allowance (AllowanceArgs owner' spender') s = Ok v s
        ∧ allowance (AllowanceArgs owner' spender') s' = Ok v s')
  ∧ balances s' = balances s
  ∧ supply s' = supply s.
Proof.
  intros Ho Hs Ho' Hs' Hne s'. subst s'.
  rewrite !allowance_eq. simpl.
  rewrite (allowance_key_address owner' spender' Ho' Hs').
  destruct (exec_approve_cases max_supply h args s) as [->|(key & _ & Hkey & ->)].
  - split; [by eexists|done].
  - split; [|done]. eexists. split; [done|]. simpl.
    rewrite lookup_insert_ne; [done|].
    rewrite (allowance_key_address _ _ Ho Hs) in Hkey. injection Hkey as <-.
    intros Heq. apply app_inj_1 in Heq as [H1 H2].
    + apply Hne. by rewrite H1, H2.
    + unfold is_address in *. congruence.
Qed.

Lemma approve_frame_witness :
  is_address addrA ∧ is_address addrC ∧ is_address addrB
  ∧ (addrB, addrC) ≠ (addrA, addrC)
  ∧ ∃ v, allowance (AllowanceArgs addrB addrC) ledger1 = Ok v ledger1
         ∧ allowance (AllowanceArgs addrB addrC)
             (exec cap (host_called_by addrA) (Approve (ApproveArgs addrA addrC 9)) ledger1)
           = Ok v (exec cap (host_called_by addrA)
                     (Approve (ApproveArgs addrA addrC 9)) ledger1).
Proof.
  assert (Hne : (addrB, addrC) ≠ (addrA, addrC)) by discriminate.
  split; [reflexivity|]. split; [reflexivity|]. split; [reflexivity|].
  split; [exact Hne|].
  exact (proj1 (approve_frame cap (host_called_by addrA) (ApproveArgs addrA addrC 9)
                  addrB addrC ledger1 eq_refl eq_refl eq_refl eq_refl Hne)).
Defined.

(** X4. An approve that returns was called by the owner's own contract
    address, or arrived without a calling contract in a transaction the
    owner signed.  No allowance stands in for the owner. *)
Theorem approve_only_by_owner
    (h : host) (args : approve_arguments) (s s' : chain_state) :
  approve h args s = Ok tt s' →
  has_caller (caller h) = Some (approve_owner args)
  ∨ (has_caller (caller h) = None
     ∧ ∃ signers, getSigners h s = Ok signers s ∧ approve_owner args ∈ signers).
Proof.
  unfold approve. intros Hrun.
  destruct (check_authority h (approve_owner args) false 0 s) as [[|] s1|e s1] eqn:Hauth.
  - by apply (check_authority_plain_true _ _ _ _ _ Hauth).
  - by rewrite (guarded_denied _ _ _ _ _ Hauth) in Hrun.
  - by rewrite (guarded_Fail _ _ _ _ _ _ Hauth) in Hrun.
Qed.

Lemma approve_only_by_owner_witness :
  (∃ s', approve (host_called_by addrA) (ApproveArgs addrA addrC 9) ledger1 = Ok tt s')
  ∧ has_caller (caller (host_called_by addrA)) = Some addrA.
Proof.
  assert (Hrun : ∃ s', approve (host_called_by addrA) (ApproveArgs addrA addrC 9) ledger1
                       = Ok tt s') by (eexists; vm_compute; reflexivity).
  split; [exact Hrun|]. destruct Hrun as [s' Hrun].
  destruct (approve_only_by_owner _ _ _ _ Hrun) as [Hc|[Hc _]]; [exact Hc|].
  discriminate Hc.
Defined.

(** X5. A mint that returns was called by the token contract itself, or
    arrived without a calling contract in a transaction signed for the
    contract's address; with any other calling contract it fails with the
    mint authorization message and writes nothing. *)
Theorem mint_only_by_contract
    (max_supply : Z) (h : host) (args : mint_arguments) (s : chain_state) :
  ((∃ s', mint max_supply h args s = Ok tt s') →
     has_caller (caller h) = Some (contract_id h)
     ∨ (has_caller (caller h) = None
        ∧ ∃ signers, getSigners h s = Ok signers s ∧ contract_id h ∈ signers))
  ∧ (∀ c, has_caller (caller h) = Some c → c ≠ contract_id h →
       mint max_supply h args s = Fail mint_denied s).
Proof.
  split.
  - intros [s' Hrun]. unfold mint in Hrun.
    destruct (check_authority h (contract_id h) false 0 s) as [[|] s1|e s1] eqn:Hauth.
    + by apply (check_authority_plain_true _ _ _ _ _ Hauth).
    + by rewrite (guarded_denied _ _ _ _ _ Hauth) in Hrun.
    + by rewrite (guarded_Fail _ _ _ _ _ _ Hauth) in Hrun.
  - intros c Hc Hne. unfold mint.
    rewrite (guarded_denied _ _ _ s s); [done|].
    rewrite (check_authority_caller_plain _ _ _ _ _ Hc). f_equal.
    unfold Arrays_equal. apply bool_decide_eq_false. congruence.
Qed.

Lemma mint_only_by_contract_witness :
  (∃ s', mint cap (host_called_by addrT) (MintArgs addrA 5) minted = Ok tt s')
  ∧ has_caller (caller (host_called_by addrT)) = Some (contract_id (host_called_by addrT))
  ∧ mint cap (host_called_by addrB) (MintArgs addrA 5) minted = Fail mint_denied minted.
Proof.
  assert (Hrun : ∃ s', mint cap (host_called_by addrT) (MintArgs addrA 5) minted
                       = Ok tt s') by (eexists; vm_compute; reflexivity).
  assert (Hne : addrB ≠ contract_id (host_called_by addrB)) by discriminate.
  split; [exact Hrun|]. split; [reflexivity|].
  exact (proj2 (mint_only_by_contract cap (host_called_by addrB) (MintArgs addrA 5) minted)
           addrB eq_refl Hne).
Defined.

(** ** Transfers between two accounts *)

Lemma transfer_authorized_moves max_supply h args s s1 :
  is_u64 max_supply →
  ledger_inv max_supply s →
  is_u64 (transfer_value args) →
  transfer_from args ≠ transfer_to args →
  check_authority h (transfer_from args) true (transfer_value args) s = Ok true s1 →
  transfer_value args ≤ stored_balance s (transfer_from args) →
  ∃ s', transfer h args s = Ok tt s'
        ∧ exec max_supply h (Transfer args) s = s'
        ∧ stored_balance s' (transfer_from args)
          = stored_balance s (transfer_from args) - transfer_value args
        ∧ stored_balance s' (transfer_to args)
          = stored_balance s (transfer_to args) + transfer_value args
        ∧ (∀ a, a ≠ transfer_from args → a ≠ transfer_to args →
             stored_balance s' a = stored_balance s a)
        ∧ supply s' = supply s
        ∧ allowances s' = allowances s1
        ∧ events s' = events s ++
            [Event "token.transfer"
               (transfer_event (transfer_from args) (transfer_to args)
                  (transfer_value args))
               [transfer_to args; transfer_from args]].
Proof.
  intros Hmax (Hsum & Hle & Hbal & _) Hv Hne Hauth Hfunds.
  destruct (check_authority_frame _ _ _ _ _ _ _ Hauth) as (Hsup1 & Hbal1 & Hev1).
  unfold is_u64 in *.
  destruct (transfer_balances (balances s) (transfer_from args) (transfer_to args)
              (transfer_value args))
    as (_ & _ & Hfrom' & Hto'); [done | lia | unfold stored_balance in Hfunds; lia |].
  rewrite decide_False in Hfrom', Hto' by done.
  assert (Hrun : transfer h args s = _transfer args s1).
  { unfold transfer. by rewrite (guarded_Ok _ _ _ _ _ Hauth). }
  rewrite _transfer_eq in Hrun. simpl in Hrun.
  assert (Hleb : (transfer_value args <=? stored_balance s1 (transfer_from args)) = true).
  { apply Z.leb_le. unfold stored_balance in *. by rewrite Hbal1. }
  rewrite Hleb in Hrun.
  eexists. split; [exact Hrun|]. split.
  { unfold exec. simpl. by rewrite (commit_Ok _ _ _ _ Hrun). }
  unfold stored_balance in *. simpl. rewrite Hbal1, Hsup1, Hev1.
  split; [exact Hfrom'|]. split; [exact Hto'|].
  split; [|done]. intros a Ha1 Ha2. by rewrite !lookup_insert_ne.
Qed.

(** X6. In a reachable state, a transfer between two different accounts
    that passes authorization and is covered by the balance returns: [from]
    holds [value] less, [to] holds [value] more, every other balance and the
    supply are unchanged, the allowances are as authorization left them, and
    one [token.transfer] event with impacted list [to; from] is added. *)
Theorem transfer_moves_value
    (max_supply : Z) (h : host) (args : transfer_arguments) (s s1 : chain_state) :
  is_u64 max_supply →
  reachable max_supply s →
  is_u64 (transfer_value args) →
  transfer_from args ≠ transfer_to args →
  check_authority h (transfer_from args) true (transfer_value args) s = Ok true s1 →
  transfer_value args ≤ stored_balance s (transfer_from args) →
  ∃ s', transfer h args s = Ok tt s'
        ∧ exec max_supply h (Transfer args) s = s'
        ∧ stored_balance s' (transfer_from args)
          = stored_balance s (transfer_from args) - transfer_value args
        ∧ stored_balance s' (transfer_to args)
          = stored_balance s (transfer_to args) + transfer_value args
        ∧ (∀ a, a ≠ transfer_from args → a ≠ transfer_to args →
             stored_balance s' a = stored_balance s a)
        ∧ supply s' = supply s
        ∧ allowances s' = allowances s1
        ∧ events s' = events s ++
            [Event "token.transfer"
               (transfer_event (transfer_from args) (transfer_to args)
                  (transfer_value args))
               [transfer_to args; transfer_from args]].
Proof.
  intros Hmax Hreach. apply transfer_authorized_moves; [done|].
  by apply reachable_ledger_inv.
Qed.

Lemma transfer_moves_value_witness :
  is_u64 cap ∧ reachable cap ledger1 ∧ addrA ≠ addrB
  ∧ ∃ s', transfer (host_signed_by [addrA]) (TransferArgs addrA addrB 60) ledger1
          = Ok tt s'
          ∧ stored_balance s' addrA = stored_balance ledger1 addrA - 60
          ∧ stored_balance s' addrB = stored_balance ledger1 addrB + 60.
Proof.
  assert (H60 : is_u64 60) by (apply small_u64; lia).
  assert (Hne : addrA ≠ addrB) by discriminate.
  assert (Hauth : check_authority (host_signed_by [addrA]) addrA true 60 ledger1
                  = Ok true ledger1) by (vm_compute; reflexivity).
  assert (Hfunds : 60 ≤ stored_balance ledger1 addrA) by (vm_compute; discriminate).
  split; [apply cap_u64|]. split; [apply ledger1_reachable|]. split; [exact Hne|].
  destruct (transfer_moves_value cap (host_signed_by [addrA]) (TransferArgs addrA addrB 60)
              ledger1 ledger1 cap_u64 ledger1_reachable H60 Hne Hauth Hfunds)
    as (s' & Hrun & _ & Hfrom & Hto & _).
  exists s'. split; [exact Hrun|]. split; [exact Hfrom | exact Hto].
Defined.



(** ** The signers of a transaction *)





(** X9. Without a calling contract and with an empty signature list nobody
    is authorized: [check_authority] never returns [true], and no entry
    point changes storage. *)
Theorem unsigned_direct_call_denied (max_supply : Z) (h : host) (s : chain_state) :
  has_caller (caller h) = None →
  tx_signatures h = Some [] →
  (∀ account acceptAllowances amount s',
     check_authority h account acceptAllowances amount s ≠ Ok true s')
  ∧ (∀ op, exec max_supply h op s = s).
Proof.
  intros Hc Hsigs.
  assert (Hdenied : ∀ account acceptAllowances amount s',
            check_authority h account acceptAllowances amount s ≠ Ok true s').
  { intros account acc amount s'. rewrite (check_authority_direct _ _ _ _ _ Hc).
    destruct (_ && _); [done|].
    unfold getSigners. run. rewrite Hsigs.
    destruct (tx_id h) as [txId|]; simpl; done. }
  split; [exact Hdenied|].
  intros [args|args|args|args].
  - destruct (exec_approve_cases max_supply h args s) as [Hs|(key & Hauth & _)]; [done|].
    by destruct (Hdenied _ _ _ _ Hauth).
  - destruct (exec_transfer_cases max_supply h args s) as [Hs|(s1 & s' & Hauth & _)]; [done|].
    by destruct (Hdenied _ _ _ _ Hauth).
  - destruct (exec_mint_cases max_supply h args s) as [Hs|(s' & Hauth & _)]; [done|].
    by destruct (Hdenied _ _ _ _ Hauth).
  - done.
Qed.

Lemma unsigned_direct_call_denied_witness :
  has_caller (caller (host_signed_by [])) = None
  ∧ tx_signatures (host_signed_by []) = Some []
  ∧ exec cap (host_signed_by []) (Transfer (TransferArgs addrA addrB 1)) ledger1 = ledger1.
Proof.
  split; [reflexivity|]. split; [reflexivity|].
  exact (proj2 (unsigned_direct_call_denied cap (host_signed_by []) ledger1
                  eq_refl eq_refl) (Transfer (TransferArgs addrA addrB 1))).
Defined.

Lemma getSigners_without_caller h s :
  getSigners (without_caller h) s = getSigners h s.
Proof.
  unfold getSigners. run.
  destruct (tx_signatures h) as [sigs|]; [|done].
  destruct (tx_id h) as [txId|]; [|done]. simpl.
  generalize (@nil bytes). induction sigs as [|sg rest IH]; intros signers; [done|].
  simpl. run. destruct (recoverPublicKey h sg txId) as [pk|]; [|done]. apply IH.
Qed.

(** X10. An empty caller array counts as no calling contract:
    [check_authority] answers as it does when the caller is null, from the
    signatures alone. *)
Theorem empty_caller_is_no_caller
    (h : host) (account : bytes) (acceptAllowances : bool) (amount : Z)
    (s : chain_state) :
  caller h = Some [] →
  check_authority h account acceptAllowances amount s
  = check_authority (without_caller h) account acceptAllowances amount s.
Proof.
  intros Hc.
  assert (Hc1 : has_caller (caller h) = None) by by rewrite Hc.
  rewrite (check_authority_direct _ _ _ _ _ Hc1).
  rewrite (check_authority_direct (without_caller h) _ _ _ _ eq_refl).
  by rewrite getSigners_without_caller.
Qed.

Lemma empty_caller_is_no_caller_witness :
  caller (host_signed_by [addrA]) = Some []
  ∧ check_authority (host_signed_by [addrA]) addrA true 5 ledger1
    = check_authority (without_caller (host_signed_by [addrA])) addrA true 5 ledger1.
Proof.
  split; [reflexivity|].
  exact (empty_caller_is_no_caller (host_signed_by [addrA]) addrA true 5 ledger1 eq_refl).
Defined.

(** ** The dormant [_burn] *)

Lemma _burn_eq args s :
  _burn args s =
    let b := stored_balance s (burn_from args) in
    if burn_value args <=? b
    then
      Ok tt (add_event
               (Event "token.burn" (burn_event (burn_from args) (burn_value args))
                  [burn_from args])
               (set_supply (u64_sub (stored_supply s) (burn_value args))
                  (set_balance (burn_from args) (u64_sub b (burn_value args)) s)))
    else Fail insufficient_balance s.
Proof.
  unfold _burn. run.
  by destruct (burn_value args <=? stored_balance s (burn_from args)).
Qed.

(** X11. [_burn], which no entry point calls, run in a reachable state:
    when [from] holds less than [value] it fails with the
    insufficient-balance message and writes nothing; otherwise it takes
    [value] off the balance of [from] and off the supply without wrapping,
    so the balances still add up to the supply, and records one
    [token.burn] event with impacted list [from]. *)
Theorem burn_body_keeps_ledger
    (max_supply : Z) (args : burn_arguments) (s : chain_state) :
  is_u64 max_supply →
  reachable max_supply s →
  is_u64 (burn_value args) →
  (stored_balance s (burn_from args) < burn_value args →
     _burn args s = Fail insufficient_balance s)
  ∧ (burn_value args ≤ stored_balance s (burn_from args) →
       ∃ s', _burn args s = Ok tt s'
             ∧ stored_balance s' (burn_from args)
               = stored_balance s (burn_from args) - burn_value args
             ∧ (∀ a, a ≠ burn_from args → stored_balance s' a = stored_balance s a)
             ∧ stored_supply s' = stored_supply s - burn_value args
             ∧ sum_balances (balances s') = stored_supply s'
             ∧ allowances s' = allowances s
             ∧ events s' = events s ++
                 [Event "token.burn" (burn_event (burn_from args) (burn_value args))
                    [burn_from args]]).
Proof.
  intros Hmax Hreach Hv.
  destruct (reachable_ledger_inv max_supply Hmax s Hreach) as (Hsum & Hle & Hbal & _).
  pose proof (balance_le_sum (balances s) (burn_from args) Hbal) as Hfrom.
  rewrite _burn_eq. simpl. unfold is_u64 in *. split.
  - intros Hlow. apply Z.leb_gt in Hlow. by rewrite Hlow.
  - intros Hfunds. apply Z.leb_le in Hfunds as Hleb. rewrite Hleb.
    eexists. split; [reflexivity|].
    unfold stored_balance, stored_supply in *. simpl.
    rewrite lookup_insert_eq. simpl.
    rewrite !u64_sub_exact by (unfold is_u64; lia).
    split; [done|]. split; [intros a Hne; by rewrite lookup_insert_ne|].
    split; [done|]. split; [|done].
    rewrite sum_balances_insert. lia.
Qed.

Lemma burn_body_keeps_ledger_witness :
  is_u64 cap ∧ reachable cap ledger1 ∧ is_u64 30
  ∧ 30 ≤ stored_balance ledger1 addrA
  ∧ ∃ s', _burn (BurnArgs addrA 30) ledger1 = Ok tt s'
          ∧ stored_supply s' = stored_supply ledger1 - 30.
Proof.
  assert (H30 : is_u64 30) by (apply small_u64; lia).
  assert (Hfunds : 30 ≤ stored_balance ledger1 addrA) by (vm_compute; discriminate).
  split; [apply cap_u64|]. split; [apply ledger1_reachable|].
  split; [exact H30|]. split; [exact Hfunds|].
  destruct (proj2 (burn_body_keeps_ledger cap (BurnArgs addrA 30) ledger1
                     cap_u64 ledger1_reachable H30) Hfunds)
    as (s' & Hrun & _ & _ & Hsup & _).
  exists s'. split; [exact Hrun | exact Hsup].
Defined.

(** ** What the queries can answer *)

(** X12. In a reachable state [balance_of] and [total_supply] return, and
    every balance lies between 0 and the total supply, itself at most
    [max_supply]; whatever [allowance] returns is a 64-bit value. *)
Theorem reachable_query_bounds
    (max_supply : Z) (s : chain_state) (a owner spender : bytes) :
  is_u64 max_supply →
  reachable max_supply s →
  (∃ b t, balance_of a s = Ok b s ∧ total_supply s = Ok t s
          ∧ 0 ≤ b ≤ t ∧ t ≤ max_supply)
  ∧ (∀ v s', allowance (AllowanceArgs owner spender) s = Ok v s' → s' = s ∧ is_u64 v).
Proof.
  intros Hmax Hreach.
  destruct (reachable_ledger_inv max_supply Hmax s Hreach) as (Hsum & Hle & Hbal & Hall).
  pose proof (balance_le_sum (balances s) a Hbal) as Ha. split.
  - exists (stored_balance s a), (stored_supply s).
    unfold stored_balance. split; [done|]. split; [done|]. lia.
  - intros v s'. rewrite allowance_eq. simpl.
    destruct (allowance_key owner spender) as [key|]; [|done].
    intros [= <- <-]. split; [done|].
    destruct (allowances s !! key) as [v|] eqn:Hv; simpl.
    + exact (Hall key v Hv).
    + unfold is_u64, u64_modulus. lia.
Qed.

Lemma reachable_query_bounds_witness :
  is_u64 cap ∧ reachable cap ledger1
  ∧ ∃ b t, balance_of addrA ledger1 = Ok b ledger1 ∧ total_supply ledger1 = Ok t ledger1
           ∧ 0 ≤ b ≤ t ∧ t ≤ cap.
Proof.
  split; [apply cap_u64|]. split; [apply ledger1_reachable|].
  exact (proj1 (reachable_query_bounds cap ledger1 addrA addrA addrC
                  cap_u64 ledger1_reachable)).
Defined.

(** ** The event log and the allowance keys of reachable states *)

Lemma minted_total_app log e :
  minted_total (log ++ [e]) = minted_total log + minted_value e.
Proof.
  unfold minted_total. induction log as [|e' log IH]; simpl; [lia|].
  rewrite IH. lia.
Qed.

Lemma log_inv_initial : log_inv initial_state.
Proof.
  unfold log_inv, initial_state, stored_supply; simpl.
  split; [constructor|]. split; [done|]. apply map_Forall_empty.
Qed.

Lemma log_inv_check_authority h account acceptAllowances amount s b s1 :
  check_authority h account acceptAllowances amount s = Ok b s1 →
  log_inv s → log_inv s1.
Proof.
  intros Hrun (Hev & Hmint & Hkeys).
  destruct (check_authority_outcome h account acceptAllowances amount s)
    as [[e He]|[[b' Hb]|(c & key & v & _ & _ & Hkey & _ & _ & Hs)]].
  - congruence.
  - rewrite Hb in Hrun. by injection Hrun as _ <-.
  - rewrite Hs in Hrun. injection Hrun as _ <-.
    split; [done|]. split; [done|]. simpl.
    apply map_Forall_insert_2; [|done]. by apply (allowance_key_length account c).
Qed.

Lemma log_inv_exec max_supply h op s :
  is_u64 max_supply → is_u64 (op_value op) →
  ledger_inv max_supply s → log_inv s → log_inv (exec max_supply h op s).
Proof.
  intros Hmax Hv (Hsum & Hle & Hbal & _) Hlog.
  destruct op as [args|args|args|args]; simpl in Hv.
  - destruct (exec_approve_cases max_supply h args s) as [->|(key & _ & Hkey & ->)];
      [done|].
    destruct Hlog as (Hev & Hmint & Hkeys). split; [|split]; simpl.
    + apply Forall_app. split; [done|]. by repeat constructor.
    + rewrite minted_total_app. simpl. unfold minted_value. simpl.
      unfold stored_supply in *. simpl. lia.
    + apply map_Forall_insert_2; [|done].
      by apply (allowance_key_length (approve_owner args) (approve_spender args)).
  - destruct (exec_transfer_cases max_supply h args s)
      as [->|(s1 & s' & Hauth & Hbody & ->)]; [done|].
    destruct (log_inv_check_authority _ _ _ _ _ _ _ Hauth Hlog) as (Hev & Hmint & Hkeys).
    rewrite _transfer_eq in Hbody. simpl in Hbody.
    destruct (transfer_value args <=? _); [|done]. injection Hbody as <-.
    split; [|split]; simpl.
    + apply Forall_app. split; [done|]. by repeat constructor.
    + rewrite minted_total_app. unfold minted_value. simpl.
      unfold stored_supply in *. simpl. lia.
    + done.
  - destruct (exec_mint_cases max_supply h args s) as [->|(s' & _ & Hbody & ->)]; [done|].
    destruct Hlog as (Hev & Hmint & Hkeys).
    rewrite _mint_eq in Hbody. simpl in Hbody.
    destruct (_ || _) eqn:Hguard; [done|]. injection Hbody as <-.
    apply orb_false_iff in Hguard as [_ Hfits].
    apply negb_false_iff, Z.leb_le in Hfits.
    pose proof (sum_balances_nonneg _ Hbal) as Hnn. unfold is_u64 in *.
    split; [|split]; simpl.
    + apply Forall_app. split; [done|]. by repeat constructor.
    + rewrite minted_total_app. unfold minted_value. simpl.
      unfold stored_supply in *. simpl.
      rewrite u64_add_exact by lia. lia.
    + done.
  - done.
Qed.

Lemma reachable_log_inv max_supply s :
  is_u64 max_supply → reachable max_supply s → log_inv s.
Proof.
  intros Hmax. induction 1 as [|h op s Hreach IH Hv].
  - apply log_inv_initial.
  - apply log_inv_exec; [done | done | by apply reachable_ledger_inv | done].
Qed.

(** X13. Every event in the log of a reachable state is a [token.approve],
    [token.transfer] or [token.mint] event whose impacted list is
    [spender; owner], [to; from] or [to] of its payload; no burn event is
    ever recorded. *)
Theorem reachable_events_well_formed (max_supply : Z) (s : chain_state) (e : event) :
  is_u64 max_supply →
  reachable max_supply s →
  e ∈ events s →
  event_well_formed e
  ∧ event_name e ≠ "token.burn"%string
  ∧ (∀ from_ v, event_payload e ≠ burn_event from_ v).
Proof.
  intros Hmax Hreach Hin.
  destruct (reachable_log_inv max_supply s Hmax Hreach) as (Hev & _).
  rewrite Forall_forall in Hev. specialize (Hev e Hin).
  split; [done|]. unfold event_well_formed in Hev.
  destruct (event_payload e); try destruct Hev as [-> _]; done.
Qed.

Lemma reachable_events_well_formed_witness :
  is_u64 cap ∧ reachable cap minted
  ∧ Event "token.mint" (mint_event addrA 100) [addrA] ∈ events minted
  ∧ event_well_formed (Event "token.mint" (mint_event addrA 100) [addrA]).
Proof.
  assert (Hin : Event "token.mint" (mint_event addrA 100) [addrA] ∈ events minted).
  { apply list_elem_of_In. vm_compute. by left. }
  split; [apply cap_u64|]. split; [apply minted_reachable|]. split; [exact Hin|].
  exact (proj1 (reachable_events_well_formed cap minted _ cap_u64 minted_reachable Hin)).
Defined.

(** X14. In a reachable state the total supply is the sum of the values of
    the mint events in the log. *)
Theorem supply_is_minted_total (max_supply : Z) (s : chain_state) :
  is_u64 max_supply →
  reachable max_supply s →
  total_supply s = Ok (minted_total (events s)) s.
Proof.
  intros Hmax Hreach.
  destruct (reachable_log_inv max_supply s Hmax Hreach) as (_ & Hmint & _).
  unfold total_supply, supply_get. by rewrite Hmint.
Qed.

Lemma supply_is_minted_total_witness :
  is_u64 cap ∧ reachable cap ledger1
  ∧ total_supply ledger1 = Ok (minted_total (events ledger1)) ledger1.
Proof.
  split; [apply cap_u64|]. split; [apply ledger1_reachable|].
  exact (supply_is_minted_total cap ledger1 cap_u64 ledger1_reachable).
Defined.

(** X15. Every allowance record of a reachable state sits under a key of
    exactly 50 bytes. *)
Theorem reachable_allowance_keys (max_supply : Z) (s : chain_state) (key : bytes) :
  is_u64 max_supply →
  reachable max_supply s →
  is_Some (allowances s !! key) →
  length key = 50%nat.
Proof.
  intros Hmax Hreach [v Hv].
  destruct (reachable_log_inv max_supply s Hmax Hreach) as (_ & _ & Hkeys).
  exact (Hkeys key v Hv).
Qed.

Lemma reachable_allowance_keys_witness :
  is_u64 cap ∧ reachable cap ledger1
  ∧ is_Some (allowances ledger1 !! (addrA ++ addrC))
  ∧ length (addrA ++ addrC) = 50%nat.
Proof.
  assert (Hrec : is_Some (allowances ledger1 !! (addrA ++ addrC)))
    by (exists 40; vm_compute; reflexivity).
  split; [apply cap_u64|]. split; [apply ledger1_reachable|]. split; [exact Hrec|].
  exact (reachable_allowance_keys cap ledger1 (addrA ++ addrC)
           cap_u64 ledger1_reachable Hrec).
Defined.

(** ** The supply across calls *)

(** X16. A call made in a reachable state never lowers the total supply:
    approve, transfer and burn leave the stored supply as it is, and a mint
    either leaves it or raises it by exactly the minted value. *)
Theorem exec_supply_monotone
    (max_supply : Z) (h : host) (op : operation) (s : chain_state) :
  is_u64 max_supply →
  reachable max_supply s →
  is_u64 (op_value op) →
  stored_supply s ≤ stored_supply (exec max_supply h op s)
  ∧ match op with
    | Mint args =>
        exec max_supply h op s = s
        ∨ stored_supply (exec max_supply h op s) = stored_supply s + mint_value args
    | _ => supply (exec max_supply h op s) = supply s
    end.
Proof.
  intros Hmax Hreach Hv.
  destruct (reachable_ledger_inv max_supply Hmax s Hreach) as (Hsum & Hle & Hbal & _).
  destruct op as [args|args|args|args]; simpl in Hv.
  - destruct (exec_approve_cases max_supply h args s) as [->|(key & _ & _ & ->)];
      (split; [|done]); unfold stored_supply; simpl; lia.
  - destruct (exec_transfer_cases max_supply h args s)
      as [->|(s1 & s' & Hauth & Hbody & ->)]; [split; [lia|done]|].
    destruct (check_authority_frame _ _ _ _ _ _ _ Hauth) as (Hsup1 & _).
    rewrite _transfer_eq in Hbody. simpl in Hbody.
    destruct (transfer_value args <=? _); [|done]. injection Hbody as <-.
    unfold stored_supply. simpl. rewrite Hsup1. split; [lia|done].
  - destruct (exec_mint_cases max_supply h args s) as [->|(s' & _ & Hbody & ->)];
      [split; [lia|by left]|].
    rewrite _mint_eq in Hbody. simpl in Hbody.
    destruct (_ || _) eqn:Hguard; [done|]. injection Hbody as <-.
    apply orb_false_iff in Hguard as [_ Hfits].
    apply negb_false_iff, Z.leb_le in Hfits.
    pose proof (sum_balances_nonneg _ Hbal) as Hnn. unfold is_u64 in *.
    unfold stored_supply in *. simpl.
    rewrite u64_add_exact by lia. split; [lia|by right].
  - split; [|done]. unfold exec. simpl. unfold commit. simpl. lia.
Qed.

Lemma exec_supply_monotone_witness :
  is_u64 cap ∧ reachable cap ledger1 ∧ is_u64 25
  ∧ stored_supply ledger1
    ≤ stored_supply (exec cap (host_called_by addrT) (Mint (MintArgs addrB 25)) ledger1).
Proof.
  assert (H25 : is_u64 (op_value (Mint (MintArgs addrB 25)))) by (apply small_u64; simpl; lia).
  split; [apply cap_u64|]. split; [apply ledger1_reachable|]. split; [exact H25|].
  exact (proj1 (exec_supply_monotone cap (host_called_by addrT) (Mint (MintArgs addrB 25))
                  ledger1 cap_u64 ledger1_reachable H25)).
Defined.

(** ** Spending an allowance more than once *)

(** X17. An allowance of [v] that a calling contract other than the account
    has spent [a] of stands at [v - a], and a second authorization for [b]
    by the same contract passes exactly when [a + b] is still within [v]. *)
Theorem allowance_not_spent_twice
    (max_supply : Z) (h : host) (account c key : bytes) (v a b : Z) (s : chain_state) :
  is_u64 max_supply →
  reachable max_supply s →
  has_caller (caller h) = Some c →
  c ≠ account →
  allowance_key account c = Some key →
  allowances s !! key = Some v →
  is_u64 a → is_u64 b → a ≤ v →
  ∃ s1, check_authority h account true a s = Ok true s1
        ∧ allowances s1 !! key = Some (v - a)
        ∧ ((∃ s2, check_authority h account true b s1 = Ok true s2) ↔ a + b ≤ v)
        ∧ (a + b ≤ v →
             check_authority h account true b s1
             = Ok true (set_allowance key (v - a - b) s1)).
Proof.
  intros Hmax Hreach Hc Hne Hkey Hv Ha Hb Hle.
  destruct (reachable_ledger_inv max_supply Hmax s Hreach) as (_ & _ & _ & Hall).
  pose proof (Hall key v Hv) as Hvu. simpl in Hvu. unfold is_u64 in *.
  assert (Hneq : Arrays_equal account c = false).
  { unfold Arrays_equal. apply bool_decide_eq_false. congruence. }
  exists (set_allowance key (v - a) s).
  assert (Hfirst : check_authority h account true a s
                   = Ok true (set_allowance key (v - a) s)).
  { rewrite (check_authority_caller_allowance _ _ _ _ _ Hc), Hkey, Hv.
    assert (Hleb : (a <=? v) = true) by (apply Z.leb_le; lia). rewrite Hleb.
    by rewrite u64_sub_exact by (unfold is_u64; lia). }
  split; [exact Hfirst|]. split; [simpl; by rewrite lookup_insert_eq|].
  rewrite (check_authority_caller_allowance _ _ _ _ _ Hc), Hkey. simpl.
  rewrite lookup_insert_eq.
  destruct (b <=? v - a) eqn:Hleb.
  - apply Z.leb_le in Hleb.
    rewrite u64_sub_exact by (unfold is_u64; lia).
    split; [split; [intros _; lia | by eexists]|done].
  - apply Z.leb_gt in Hleb. rewrite Hneq.
    split; [split; [by intros [s2 Hs2] | lia] | lia].
Qed.

Lemma allowance_not_spent_twice_witness :
  is_u64 cap ∧ reachable cap ledger1
  ∧ allowances ledger1 !! (addrA ++ addrC) = Some 40
  ∧ ∃ s1, check_authority (host_called_by addrC) addrA true 30 ledger1 = Ok true s1
          ∧ ((∃ s2, check_authority (host_called_by addrC) addrA true 20 s1 = Ok true s2)
             ↔ 30 + 20 ≤ 40).
Proof.
  assert (H30 : is_u64 30) by (apply small_u64; lia).
  assert (H20 : is_u64 20) by (apply small_u64; lia).
  assert (Hne : addrC ≠ addrA) by discriminate.
  assert (Hrec : allowances ledger1 !! (addrA ++ addrC) = Some 40)
    by (vm_compute; reflexivity).
  assert (Hle : 30 ≤ 40) by lia.
  split; [apply cap_u64|]. split; [apply ledger1_reachable|]. split; [exact Hrec|].
  destruct (allowance_not_spent_twice cap (host_called_by addrC) addrA addrC
              (addrA ++ addrC) 40 30 20 ledger1 cap_u64 ledger1_reachable
              eq_refl Hne eq_refl Hrec H30 H20 Hle) as (s1 & Hfirst & _ & Hsecond & _).
  exists s1. split; [exact Hfirst | exact Hsecond].
Defined.

(** ** What a failed call has written *)

Ltac unchanged := intros [= _ <-]; repeat (split; [done|]); by left.

(** X18. When an entry point fails, the contract has written no balance, no
    supply and no event.  Storage is exactly as before the call, except in
    one case: a transfer authorized through an allowance that then fails for
    insufficient balance has already written the reduced allowance. *)
Theorem failed_call_writes
    (max_supply : Z) (h : host) (op : operation) (e : failure) (s s' : chain_state) :
  entry_point max_supply h op s = Fail e s' →
  balances s' = balances s ∧ supply s' = supply s ∧ events s' = events s
  ∧ (s' = s
     ∨ ∃ args c key v,
         op = Transfer args ∧ e = insufficient_balance
         ∧ has_caller (caller h) = Some c
         ∧ allowance_key (transfer_from args) c = Some key
         ∧ allowances s !! key = Some v ∧ transfer_value args ≤ v
         ∧ s' = set_allowance key (u64_sub v (transfer_value args)) s).
Proof.
  destruct op as [args|args|args|args]; simpl.
  - unfold approve.
    destruct (check_authority_outcome h (approve_owner args) false 0 s)
      as [[e' He]|[[b Hb]|(c & key & v & Hacc & _)]]; [| |done].
    + rewrite (guarded_Fail _ _ _ _ _ _ He). unchanged.
    + destruct b.
      * rewrite (guarded_Ok _ _ _ _ _ Hb), _approve_eq.
        destruct (allowance_key _ _); [done|]. unchanged.
      * rewrite (guarded_denied _ _ _ _ _ Hb). unchanged.
  - unfold transfer.
    destruct (check_authority_outcome h (transfer_from args) true (transfer_value args) s)
      as [[e' He]|[[b Hb]|(c & key & v & _ & Hc & Hkey & Hv & Hle & Hs)]].
    + rewrite (guarded_Fail _ _ _ _ _ _ He). unchanged.
    + destruct b.
      * rewrite (guarded_Ok _ _ _ _ _ Hb), _transfer_eq. simpl.
        destruct (transfer_value args <=? _); [done|]. unchanged.
      * rewrite (guarded_denied _ _ _ _ _ Hb). unchanged.
    + rewrite (guarded_Ok _ _ _ _ _ Hs), _transfer_eq. simpl.
      destruct (transfer_value args <=? _); [done|]. intros [= <- <-].
      repeat (split; [done|]). right. by exists args, c, key, v.
  - unfold mint.
    destruct (check_authority_outcome h (contract_id h) false 0 s)
      as [[e' He]|[[b Hb]|(c & key & v & Hacc & _)]]; [| |done].
    + rewrite (guarded_Fail _ _ _ _ _ _ He). unchanged.
    + destruct b.
      * rewrite (guarded_Ok _ _ _ _ _ Hb), _mint_eq. simpl.
        destruct (_ || _); [|done]. unchanged.
      * rewrite (guarded_denied _ _ _ _ _ Hb). unchanged.
  - done.
Qed.

Lemma failed_call_writes_witness :
  entry_point cap (host_called_by addrC) (Transfer (TransferArgs addrA addrB 300)) ledger2
    = Fail insufficient_balance (set_allowance (addrA ++ addrC) 100 ledger2)
  ∧ balances (set_allowance (addrA ++ addrC) 100 ledger2) = balances ledger2.
Proof.
  assert (Hrun : entry_point cap (host_called_by addrC)
                   (Transfer (TransferArgs addrA addrB 300)) ledger2
                 = Fail insufficient_balance (set_allowance (addrA ++ addrC) 100 ledger2))
    by (vm_compute; reflexivity).
  split; [exact Hrun|].
  exact (proj1 (failed_call_writes cap (host_called_by addrC)
                  (Transfer (TransferArgs addrA addrB 300)) insufficient_balance
                  ledger2 _ Hrun)).
Defined.

(** ** Addresses that do not fit the key *)

(** X19. The allowance key exists exactly when the owner has at most 50
    bytes and the spender at most 25.  The [allowance] query returns under
    that condition and traps otherwise, and an approve that passes
    authorization but whose arguments do not fit traps without writing. *)
Theorem oversize_addresses_trap
    (h : host) (owner spender : bytes) (value : Z) (s : chain_state) :
  (is_Some (allowance_key owner spender)
     ↔ (length owner ≤ 50)%nat ∧ (length spender ≤ 25)%nat)
  ∧ ((∃ v, allowance (AllowanceArgs owner spender) s = Ok v s)
     ↔ (length owner ≤ 50)%nat ∧ (length spender ≤ 25)%nat)
  ∧ (¬ ((length owner ≤ 50)%nat ∧ (length spender ≤ 25)%nat) →
       allowance (AllowanceArgs owner spender) s = Fail Trap s
       ∧ (check_authority h owner false 0 s = Ok true s →
            approve h (ApproveArgs owner spender value) s = Fail Trap s)).
Proof.
  assert (Hkey : is_Some (allowance_key owner spender)
                 ↔ (length owner ≤ 50)%nat ∧ (length spender ≤ 25)%nat).
  { split.
    - intros [key Hkey].
      destruct (decide (length owner ≤ 50)%nat) as [Ho|Ho];
        [destruct (decide (length spender ≤ 25)%nat) as [Hs|Hs]; [done|]|];
        rewrite allowance_key_None in Hkey by lia; done.
    - intros [Ho Hs]. by apply allowance_key_Some. }
  split; [exact Hkey|]. rewrite allowance_eq. simpl. split.
  - rewrite <- Hkey. destruct (allowance_key owner spender) as [key|].
    + split; [by eexists | by eexists].
    + split; [by intros [v Hv] | by intros [key Hk]].
  - intros Hbig. rewrite <- Hkey in Hbig.
    destruct (allowance_key owner spender) as [key|] eqn:Hnone;
      [destruct Hbig; by eexists|].
    split; [done|]. intros Hauth. unfold approve.
    rewrite (guarded_Ok _ _ _ _ _ Hauth), _approve_eq. simpl. by rewrite Hnone.
Qed.
